(** * Sator squares: a shallow embedding of [sator.py]

    The Python module builds a word index ([WordsList]) over a list of raw
    words and searches it for "Sator" grids ([Satorter]).  This file embeds
    the module function by function and proves properties of the embedding.

    Conventions of the embedding.
    - A Python [str] is the list of its code points ([list N]); indexing,
      slicing and [len] therefore count code points, as Python does.
    - A Python [int] that the module only ever uses as a size or a position
      is a [nat]; an index that the module computes by subtraction is a [Z]
      and goes through Python's rule for negative indices.
    - Objects with identity ([Word], [Sator]) carry an allocation number.
      The only attribute ever mutated after construction is [Word._inverted];
      it lives in an explicit store that is threaded through the code that
      writes it.
    - A generator is the list of the values it yields followed by the
      exception that ended it, if any ([Trace]). *)

From Stdlib Require Import ZArith NArith String Ascii.
From stdpp Require Import base list gmap sorting.

Local Open Scope Z_scope.
Local Open Scope nat_scope.

(** ** Python strings *)

Definition str := list N.

(** An ASCII literal as a Python string. *)
Definition lit (s : string) : str := map N_of_ascii (list_ascii_of_string s).

(** [s1 < s2] on Python strings: lexicographic on code points. *)
Fixpoint str_ltb (s1 s2 : str) : bool :=
  match s1, s2 with
  | [], [] => false
  | [], _ :: _ => true
  | _ :: _, [] => false
  | c1 :: r1, c2 :: r2 =>
      if N.ltb c1 c2 then true
      else if N.ltb c2 c1 then false
      else str_ltb r1 r2
  end.

(** ** Exceptions and generators *)

Inductive ExnKind :=
  AssertionError | AttributeError | IndexError | KeyError | NameError.

(** An exception, with the source line that raised it (the line the
    traceback printed by [format_exc] ends at). *)
Record Exn := mkExn { kind : ExnKind; line : nat }.

Definition Trace (A : Type) : Type := (list A * option Exn)%type.

(** The result of a call that may raise. *)
Inductive Result (A : Type) :=
| Ok (a : A)
| Raise (e : Exn).
Arguments Ok {A} a.
Arguments Raise {A} e.

(** ** Python sequence operations *)

(** The position a Python index [i] denotes in a sequence of length [n]:
    negative indices count from the end; out of range is [None]. *)
Definition py_index (n : nat) (i : Z) : option nat :=
  if (0 <=? i)%Z then
    if (i <? Z.of_nat n)%Z then Some (Z.to_nat i) else None
  else
    if (0 <=? i + Z.of_nat n)%Z then Some (Z.to_nat (i + Z.of_nat n)) else None.

(** [l[i]]; [None] stands for IndexError. *)
Definition py_getitem {A} (l : list A) (i : Z) : option A :=
  match py_index (List.length l) i with
  | Some k => l !! k
  | None => None
  end.

(** [l[i] = v]; [None] stands for IndexError. *)
Definition py_setitem {A} (l : list A) (i : Z) (v : A) : option (list A) :=
  match py_index (List.length l) i with
  | Some k => Some (<[k := v]> l)
  | None => None
  end.

(** A slice bound clamped the way Python clamps it. *)
Definition py_bound (n : nat) (i : Z) : nat :=
  if (0 <=? i)%Z then Nat.min (Z.to_nat i) n
  else Z.to_nat (Z.max 0 (i + Z.of_nat n)).

(** [l[lo:hi]]. *)
Definition py_slice {A} (l : list A) (lo hi : Z) : list A :=
  let a := py_bound (List.length l) lo in
  let b := py_bound (List.length l) hi in
  take (b - a) (drop a l).

(** [sorted(l)] for a [<] given as a boolean function: a stable insertion
    sort, which like Python's sort only ever asks [x < y]. *)
Section Sorted.
Context {A : Type} (lt : A -> A -> bool).

Fixpoint insert_sorted (x : A) (l : list A) : list A :=
  match l with
  | [] => [x]
  | y :: l' => if lt x y then x :: y :: l' else y :: insert_sorted x l'
  end.

Definition sorted (l : list A) : list A :=
  fold_left (fun acc x => insert_sorted x acc) l [].
End Sorted.

(** ** [deaccent] and [invert] *)

(** [word.replace(x, y)] for one-code-point [x] and [y]. *)
Definition replace (x y : N) (word : str) : str :=
  map (fun c => if N.eqb c x then y else c) word.

(** The nine pairs of [deaccent], as code points:
    á→a, é→e, í→i, ó→o, ú→u, ü→u, î→i, ö→o, Á→a. *)
Definition accents : list (N * N) :=
  [(225, 97); (233, 101); (237, 105); (243, 111); (250, 117);
   (252, 117); (238, 105); (246, 111); (193, 97)]%N.

Definition deaccent (word : str) : str :=
  fold_left (fun word xy => replace (fst xy) (snd xy) word) accents word.

Definition invert (word : str) : str := rev word.


(** ** [Word] *)

(** A [Word] object: its allocation number and the string it was built
    from.  [deaccented], [inverted_deaccented] and [is_symmetrical] are set
    once from [original] and never written again, so they are functions of
    it. *)
Record Word := mkWord { wid : nat; original : str }.

Definition deaccented (self : Word) : str := deaccent (original self).

Definition inverted_deaccented (self : Word) : str := invert (deaccented self).

Definition is_symmetrical (self : Word) : bool :=
  bool_decide (deaccented self = inverted_deaccented self).

(** [Word.__len__] *)
Definition Word_len (self : Word) : nat := List.length (deaccented self).

(** [Word.__eq__] against another [Word] or [None]. *)
Definition Word_eq (self : Word) (other : option Word) : bool :=
  match other with
  | None => false
  | Some o => bool_decide (deaccented self = deaccented o)
  end.

(** [Word.__lt__] *)
Definition Word_lt (self other : Word) : bool :=
  str_ltb (original self) (original other).

(** The truth value of an expression that is [None] or a [Word]: [Word]
    defines [__len__] and no [__bool__], so a [Word] is true exactly when
    its length is not zero. *)
Definition truth (o : option Word) : bool :=
  match o with
  | None => false
  | Some w => negb (Word_len w =? 0)
  end.

(** The [Word] objects allocated so far, in order of allocation (an
    object's [wid] is its place in the list), and their [_inverted]
    attributes; an object without the attribute, or with [None] in it, has
    no entry. *)
Record Heap := mkHeap { allocated : list Word; _inverted : gmap nat Word }.

Definition empty_heap : Heap := {| allocated := []; _inverted := ∅ |}.

(** [Inverted.__get__]: [getattr(obj, "_inverted", None)]. *)
Definition Inverted_get (h : Heap) (obj : Word) : option Word :=
  _inverted h !! wid obj.

(** [obj._inverted = value] *)
Definition store_inverted (h : Heap) (obj : Word) (value : option Word) : Heap :=
  {| allocated := allocated h;
     _inverted := match value with
                  | Some v => <[wid obj := v]> (_inverted h)
                  | None => delete (wid obj) (_inverted h)
                  end |}.

(** [Inverted.__set__].  The assignment [value.inverted = obj] calls the
    setter again; [fuel] bounds the depth of these nested calls. *)
Fixpoint Inverted_set_fuel (fuel : nat) (h : Heap) (obj : Word) (value : option Word) : Heap :=
  let h1 := store_inverted h obj value in
  match value with
  | None => h1
  | Some v =>
      match Inverted_get h1 v with
      | Some _ => h1
      | None =>
          match fuel with
          | 0 => h1
          | S fuel' => Inverted_set_fuel fuel' h1 v (Some obj)
          end
      end
  end.

(** One nested call is all that ever happens (lemma
    [Inverted_set_fuel_stable] below), so two levels are the setter. *)
Definition Inverted_set (h : Heap) (obj : Word) (value : option Word) : Heap :=
  Inverted_set_fuel 2 h obj value.

(** [Word.__init__] *)
Definition Word_init (h : Heap) (original : str) : Word * Heap :=
  let self := {| wid := List.length (allocated h); original := original |} in
  let h := {| allocated := allocated h ++ [self]; _inverted := _inverted h |} in
  if is_symmetrical self then (self, Inverted_set h self (Some self))
  else (self, h).

(** ** [DictStorage] *)

(** A Python dict keeps its keys in insertion order, and assigning to a key
    that is present keeps the key's place: an association list updated in
    place. *)
Module DictStorage.
Definition t := list (str * Word).

Definition __init__ : t := [].

Fixpoint get (content : t) (item : str) : option Word :=
  match content with
  | [] => None
  | (k, v) :: rest => if bool_decide (k = item) then Some v else get rest item
  end.

Fixpoint set (content : t) (item : str) (value : Word) : t :=
  match content with
  | [] => [(item, value)]
  | (k, v) :: rest =>
      if bool_decide (k = item) then (k, value) :: rest
      else (k, v) :: set rest item value
  end.

(** [DictStorage.update] for the keyword arguments that reach the heap:
    [_inverted=value] assigns the attribute as it is, [inverted=value]
    goes through the descriptor.  ([original] and [deaccented], which this
    file takes as fixed, are never passed by the module itself: it does
    not call [update] at all.) *)
Inductive Attribute := attr__inverted | attr_inverted.

Definition update (content : t) (h : Heap) (item : str)
    (kwargs : list (Attribute * option Word)) : Result Heap :=
  match get content item with
  | None => Raise (mkExn KeyError 35)
  | Some element =>
      Ok (fold_left
            (fun h kv =>
               match fst kv with
               | attr__inverted => store_inverted h element (snd kv)
               | attr_inverted => Inverted_set h element (snd kv)
               end)
            kwargs h)
  end.

Definition __iter__ (content : t) : list Word := map snd content.

Definition __contains__ (content : t) (item : str) : bool :=
  bool_decide (item ∈ map fst content).
End DictStorage.

(** ** [WordsList] *)

(** The truth value of an [int] argument that defaults to [None]. *)
Definition int_truth (n : option nat) : bool :=
  match n with
  | None | Some 0 => false
  | Some (S _) => true
  end.

(** [n == m] for such an argument [n] and an [int] [m]. *)
Definition int_eq (m : nat) (n : option nat) : bool :=
  match n with
  | None => false
  | Some n => m =? n
  end.

Module WordsList.
(** [l_and_p] maps (letter, position) to a set of deaccented words.  A
    Python set has no fixed iteration order; here a set is the list of
    its elements in the order they were added. *)
Record t := mk
  { length : option nat;
    _words : list str;
    words : DictStorage.t;
    l_and_p : gmap (N * nat) (list str) }.

Definition set_add (x : str) (s : list str) : list str :=
  if bool_decide (x ∈ s) then s else s ++ [x].

(** One turn of the loop of [register_word_letter_and_position]. *)
Definition register_letter (deacc : str) (lp : gmap (N * nat) (list str))
    (pl : nat * N) : gmap (N * nat) (list str) :=
  let key := (snd pl, fst pl) in
  let lp := match lp !! key with
            | None => <[key := []]> lp
            | Some _ => lp
            end in
  <[key := set_add deacc (default [] (lp !! key))]> lp.

Definition register_word_letter_and_position (self : t) (word : Word) : t :=
  {| length := length self;
     _words := _words self;
     words := words self;
     l_and_p := fold_left (register_letter (deaccented word))
                  (imap (fun pos letter => (pos, letter)) (deaccented word))
                  (l_and_p self) |}.

(** The body of the loop of [setup], for one [word_str]. *)
Definition setup_step (st : t * Heap) (word_str : str) : t * Heap :=
  let (self, h) := st in
  let (word, h) := Word_init h word_str in
  let self := {| length := length self;
                 _words := _words self;
                 words := DictStorage.set (words self) (deaccented word) word;
                 l_and_p := l_and_p self |} in
  let self := register_word_letter_and_position self word in
  let inverted := DictStorage.get (words self) (invert (deaccented word)) in
  if truth inverted then (self, Inverted_set h word inverted)
  else (self, h).

Definition setup (self : t) (h : Heap) : t * Heap :=
  fold_left setup_step (_words self) (self, h).

Definition __init__ (h : Heap) (words : list str) (length : option nat) : t * Heap :=
  let _words :=
    filter (fun w => negb (int_truth length) || int_eq (List.length w) length)
           (sorted str_ltb words) in
  setup {| length := length;
           _words := _words;
           words := DictStorage.__init__;
           l_and_p := ∅ |} h.

Definition iter_for_length (self : t) (h : Heap) (length : nat) : list Word :=
  filter (fun word =>
            negb (negb (Word_len word =? length)
                  || bool_decide (Inverted_get h word = None)))
         (DictStorage.__iter__ (words self)).

(** The loop of [word_for_letters_in_position] over the items of the set. *)
Fixpoint matching (self : t) (letters : str) (position : nat)
    (length : option nat) (items : list str) : Trace Word :=
  match items with
  | [] => ([], None)
  | item :: rest =>
      if int_truth length && negb (int_eq (List.length item) length)
      then matching self letters position length rest
      else
        match DictStorage.get (words self) item with
        | None => ([], Some (mkExn AttributeError 82))
        | Some candidate =>
            if bool_decide
                 (py_slice (deaccented candidate) (Z.of_nat position)
                    (Z.of_nat position + Z.of_nat (List.length letters))
                  = letters)
            then
              let (ys, e) := matching self letters position length rest in
              (candidate :: ys, e)
            else matching self letters position length rest
        end
  end.

Definition word_for_letters_in_position (self : t) (letters : str)
    (position : nat) (length : option nat) : Trace Word :=
  match py_getitem letters 0 with
  | None => ([], Some (mkExn IndexError 78))
  | Some letter0 =>
      matching self letters position length
        (default [] (l_and_p self !! (letter0, position)))
  end.
End WordsList.

(** ** [Sator] *)

Module Sator.
(** [id] is the object's identity: [Sator] defines [__hash__] and no
    [__eq__], so [==] between two grids, and with it membership in a set
    of grids, is identity. *)
Record t := mk
  { id : nat;
    length : nat;
    content : list (option Word) }.

(** [Sator.__init__], for the object allocated as number [new_id]. *)
Definition __init__ (new_id : nat) (length : nat)
    (content : option (list (option Word))) : Result t :=
  let given := match content with
               | None | Some [] => None
               | Some (w :: ws) => Some (w :: ws)
               end in
  match given with
  | None => Ok {| id := new_id; length := length; content := replicate length None |}
  | Some c =>
      if List.length c =? length
      then Ok {| id := new_id; length := length; content := c |}
      else Raise (mkExn AssertionError 143)
  end.

(** [Sator.__setitem__]; [word] is whatever expression the caller passes,
    so it may be [None]. *)
Definition __setitem__ (h : Heap) (self : t) (pos : nat) (word : option Word) : Result t :=
  match word with
  | None => Raise (mkExn AttributeError 148)
  | Some w =>
      if negb (truth (Inverted_get h w)) then Raise (mkExn AssertionError 148)
      else
        match py_setitem (content self) (Z.of_nat pos) (Some w) with
        | None => Raise (mkExn IndexError 149)
        | Some c1 =>
            if negb (2 * pos + 1 =? length self) then
              match py_setitem c1 (Z.of_nat (length self) - Z.of_nat pos - 1)%Z
                      (Inverted_get h w) with
              | None => Raise (mkExn IndexError 151)
              | Some c2 => Ok {| id := id self; length := length self; content := c2 |}
              end
            else Ok {| id := id self; length := length self; content := c1 |}
        end
  end.

(** [Sator.__copy__]: a new object over a copy of the list. *)
Definition __copy__ (new_id : nat) (self : t) : Result t :=
  __init__ new_id (length self) (Some (content self)).

Definition copy_with_word_in_pos (h : Heap) (new_id : nat) (self : t)
    (word : option Word) (pos : nat) : Result t :=
  match __copy__ new_id self with
  | Raise e => Raise e
  | Ok new_sator => __setitem__ h new_sator pos word
  end.

(** What [Sator.__hash__] hashes: the entries that are true, sorted with
    [Word.__lt__]. *)
Definition hash_key (self : t) : list Word :=
  sorted Word_lt (omap (fun w => if truth w then w else None) (content self)).

(** [Sator.__getitem__] with a slice. *)
Definition __getitem__ (self : t) (lo hi : Z) : list (option Word) :=
  py_slice (content self) lo hi.
End Sator.

(** ** [Satorter] *)

Module Satorter.
(** [results] is a set of grids; membership is by identity (see
    [Sator.t]), so the list of the grids added is all there is to it. *)
Record t := mk
  { words : WordsList.t;
    near_miss : Z;
    length : nat;
    results : list Sator.t }.

Definition __init__ (words : WordsList.t) (length : option nat) (near_miss : Z) : Result t :=
  let length := if int_truth (WordsList.length words)
                then WordsList.length words else length in
  match length with
  | Some (S n) =>
      Ok {| words := words; near_miss := near_miss; length := S n; results := [] |}
  | _ => Raise (mkExn AssertionError 185)
  end.

(** [(self.length + 1) // 2 - 1]; [self.length] is at least 1. *)
Definition middle_pos (self : t) : nat := (length self + 1) / 2 - 1.

Section Search.
(** The [_inverted] attributes are only read during the search. *)
Variable h : Heap.
Variable self : t.

(** ["".join(w.deaccented[pos-1] for w in rows)] *)
Fixpoint column (pos : nat) (rows : list (option Word)) : Result str :=
  match rows with
  | [] => Ok []
  | None :: _ => Raise (mkExn AttributeError 216)
  | Some w :: rest =>
      match py_getitem (deaccented w) (Z.of_nat pos - 1)%Z with
      | None => Raise (mkExn IndexError 216)
      | Some c =>
          match column pos rest with
          | Ok cs => Ok (c :: cs)
          | Raise e => Raise e
          end
      end
  end.

Definition required (new_sator : Sator.t) (pos : nat) : Result str :=
  column pos (Sator.__getitem__ new_sator (Z.of_nat pos)
                (Z.of_nat (length self) - Z.of_nat pos)%Z).

(** The [for running_word in ...] loop: [rec] is the recursive call for
    one candidate, [next_id] the number of the next object allocated.
    Returns the grids yielded, the exception that ended the loop if
    any, [no_words], and the next object number. *)
Fixpoint candidates (rec : Word -> nat -> Trace Sator.t * nat)
    (running_words : list Word) (no_words : bool) (next_id : nat)
    : list Sator.t * option Exn * bool * nat :=
  match running_words with
  | [] => ([], None, no_words, next_id)
  | running_word :: rest =>
      if negb (truth (Inverted_get h running_word))
      then candidates rec rest no_words next_id
      else
        match rec running_word next_id with
        | ((inner, Some e), next_id) => (inner, Some e, false, next_id)
        | ((inner, None), next_id) =>
            let '(ys, e, no_words, next_id) := candidates rec rest false next_id in
            (inner ++ ys, e, no_words, next_id)
        end
  end.

(** [iter_sator_for_central] with [pos] and [sator] given. *)
Fixpoint iter_sator_for_central_at (running_word : Word) (pos : nat)
    (sator : Sator.t) (next_id : nat) {struct pos} : Trace Sator.t * nat :=
  match Sator.copy_with_word_in_pos h next_id sator
          (Inverted_get h running_word) pos with
  | Raise e => (([], Some e), S next_id)
  | Ok new_sator =>
      match pos with
      | 0 => (([new_sator], None), S next_id)
      | S pos' =>
          match required new_sator pos with
          | Raise e => (([], Some e), S next_id)
          | Ok letters =>
              let (running_words, stopped) :=
                WordsList.word_for_letters_in_position (words self) letters pos
                  (Some (length self)) in
              let '(ys, e, no_words, next_id) :=
                candidates
                  (fun running_word => iter_sator_for_central_at running_word pos' new_sator)
                  running_words true (S next_id) in
              match e, stopped with
              | Some e, _ => ((ys, Some e), next_id)
              | None, Some e => ((ys, Some e), next_id)
              | None, None =>
                  if no_words && (Z.of_nat pos <=? near_miss self)%Z
                  then ((ys ++ [new_sator], None), next_id)
                  else ((ys, None), next_id)
              end
          end
      end
  end.

(** [iter_sator_for_central], with its two defaults. *)
Definition iter_sator_for_central (running_word : Word) (pos : option nat)
    (sator : option Sator.t) (next_id : nat) : Trace Sator.t * nat :=
  let pos := match pos with None => middle_pos self | Some pos => pos end in
  match sator with
  | Some sator => iter_sator_for_central_at running_word pos sator next_id
  | None =>
      match Sator.__init__ next_id (length self) None with
      | Raise e => (([], Some e), S next_id)
      | Ok sator => iter_sator_for_central_at running_word pos sator (S next_id)
      end
  end.

(** [result in self.results] *)
Definition in_results (result : Sator.t) (results : list Sator.t) : bool :=
  existsb (fun r => Sator.id r =? Sator.id result) results.

(** The body of [for result in ...]: the grids passed on to the caller
    and the set afterwards. *)
Fixpoint pass_on (found : list Sator.t) (results : list Sator.t)
    : list Sator.t * list Sator.t :=
  match found with
  | [] => ([], results)
  | result :: rest =>
      if in_results result results then pass_on rest results
      else
        let (ys, results) := pass_on rest (results ++ [result]) in
        (result :: ys, results)
  end.

(** What a run of [generator] does: the grids it yields, the tracebacks
    it prints, the exception it ends with if any, and [self.results]
    afterwards. *)
Record Run := mkRun
  { yielded : list Sator.t;
    printed : list Exn;
    raised : option Exn;
    results_after : list Sator.t }.

(** The [for word in ...] loop of [generator].  The handler prints the
    traceback and then evaluates the name [sator], which is no local of
    [generator]: [sator_bound] says whether the module has a global of
    that name by then (only the loop under [if __name__ == "__main__"]
    ever binds one, once it has received a grid). *)
Fixpoint seeds (sator_bound : bool) (todo : list Word)
    (results : list Sator.t) (next_id : nat) : Run :=
  match todo with
  | [] => mkRun [] [] None results
  | word :: rest =>
      if negb (length self mod 2 =? 0) && negb (is_symmetrical word)
      then seeds sator_bound rest results next_id
      else
        let '((found, e), next_id) := iter_sator_for_central word None None next_id in
        let (ys, results) := pass_on found results in
        match e with
        | None =>
            let r := seeds sator_bound rest results next_id in
            mkRun (ys ++ yielded r) (printed r) (raised r) (results_after r)
        | Some e =>
            if sator_bound then
              let r := seeds sator_bound rest results next_id in
              mkRun (ys ++ yielded r) (e :: printed r) (raised r) (results_after r)
            else mkRun ys [e] (Some (mkExn NameError 207)) results
        end
  end.

Definition generator (sator_bound : bool) (next_id : nat) : Run :=
  seeds sator_bound
    (WordsList.iter_for_length (words self) h (length self))
    (results self) next_id.
End Search.
End Satorter.

(** ** Notions used to state the properties *)

(** What [deaccent] does to one code point. *)
Definition deaccent_letter (c : N) : N :=
  fold_left (fun c xy => if N.eqb c (fst xy) then snd xy else c) accents c.

(** [c] is one of the nine letters [deaccent] replaces. *)
Definition accented (c : N) : Prop := c ∈ map fst accents.

(** A heap as the module's code leaves it: every object sits at its own
    number, and whoever has a partner has an allocated partner whose
    deaccented form is the reverse of its own and who has a partner too. *)
Definition heap_wf (h : Heap) : Prop :=
  (∀ i w, allocated h !! i = Some w → wid w = i) ∧
  (∀ i p, _inverted h !! i = Some p →
     ∃ w, allocated h !! i = Some w
          ∧ allocated h !! wid p = Some p
          ∧ deaccented p = invert (deaccented w)
          ∧ is_Some (_inverted h !! wid p)).

(** A word index as [setup] leaves it: every entry of [words] is filed
    under its own deaccented form, and every string in a set of [l_and_p]
    is a key of [words]. *)
Definition index_wf (self : WordsList.t) : Prop :=
  (∀ k v, (k, v) ∈ WordsList.words self → deaccented v = k) ∧
  (∀ key item, item ∈ default [] (WordsList.l_and_p self !! key) →
     item ∈ map fst (WordsList.words self)).

(** Every entry of [words] is an object of the heap. *)
Definition index_allocated (self : WordsList.t) (h : Heap) : Prop :=
  ∀ k v, (k, v) ∈ WordsList.words self → allocated h !! wid v = Some v.

(** The string read down column [pos] of a grid: the letter at index
    [pos] of each row, top to bottom; [None] when a slot is empty or a row
    is too short. *)
Definition read_column (g : Sator.t) (pos : nat) : option str :=
  mapM (fun w : option Word => w ≫= (fun w => deaccented w !! pos)) (Sator.content g).

(** Slot [j] of [g] holds a word. *)
Definition filled (g : Sator.t) (j : nat) : Prop :=
  ∃ w, Sator.content g !! j = Some (Some w).


(** The grids [ys] are new objects: their numbers are distinct and lie
    between the object number before and the one after. *)
Definition new_objects (before : nat) (ys : list Sator.t) (after : nat) : Prop :=
  before ≤ after
  ∧ (∀ g, g ∈ ys → before ≤ Sator.id g < after)
  ∧ NoDup (map Sator.id ys).

(** The index over the strings [processed], given to [setup] in that
    order: the keys of [words] are the deaccented forms of the strings,
    each once; the word filed under a key was built from the last string
    with that deaccented form; and the set of [l_and_p] for a letter and a
    position holds exactly the keys that have the letter at the position,
    each once. *)
Definition index_exact (self : WordsList.t) (processed : list str) : Prop :=
  NoDup (map fst (WordsList.words self))
  ∧ (∀ k, k ∈ map fst (WordsList.words self) ↔ ∃ s, s ∈ processed ∧ deaccent s = k)
  ∧ (∀ k v, (k, v) ∈ WordsList.words self →
       deaccented v = k
       ∧ last (filter (fun s => deaccent s = k) processed) = Some (original v))
  ∧ (∀ c pos item,
       item ∈ default [] (WordsList.l_and_p self !! (c, pos))
       ↔ item ∈ map fst (WordsList.words self) ∧ item !! pos = Some c)
  ∧ (∀ key, NoDup (default [] (WordsList.l_and_p self !! key))).

(** The partners of the indexed words: a word with a non-empty key has a
    partner when the reverse of its key is a key; a word with a partner
    has the reverse of its key among the keys; and a word that reads the
    same backwards is its own partner. *)
Definition partners_exact (self : WordsList.t) (h : Heap) : Prop :=
  (∀ k w, (k, w) ∈ WordsList.words self → k ≠ [] →
     invert k ∈ map fst (WordsList.words self) → is_Some (Inverted_get h w))
  ∧ (∀ k w, (k, w) ∈ WordsList.words self → is_Some (Inverted_get h w) →
       invert k ∈ map fst (WordsList.words self))
  ∧ (∀ k w, (k, w) ∈ WordsList.words self → is_symmetrical w = true →
       Inverted_get h w = Some w).

(** The letter at index [j] of the word in slot [i] of a grid. *)
Definition letter (g : Sator.t) (i j : nat) : option N :=
  match Sator.content g !! i with
  | Some (Some w) => deaccented w !! j
  | _ => None
  end.

(** A grid of side [n] whose slots [pos] to [n - 1 - pos] hold words and
    whose other slots are empty. *)
Definition ring_closed (n pos : nat) (g : Sator.t) : Prop :=
  List.length (Sator.content g) = n ∧ Sator.length g = n
  ∧ ∀ j, j < n → if decide (pos ≤ j ≤ n - 1 - pos) then filled g j
                 else Sator.content g !! j = Some None.

(** The same with slots [pos] and [n - 1 - pos] still empty. *)
Definition ring_open (n pos : nat) (g : Sator.t) : Prop :=
  List.length (Sator.content g) = n ∧ Sator.length g = n
  ∧ ∀ j, j < n → if decide (pos < j < n - 1 - pos) then filled g j
                 else Sator.content g !! j = Some None.

(** Every word of the grid faces, in the slot mirrored top to bottom, a
    word whose deaccented form is the reverse of its own. *)
Definition mirrored (n : nat) (g : Sator.t) : Prop :=
  ∀ j w, Sator.content g !! j = Some (Some w) →
    ∃ p, Sator.content g !! (n - 1 - j) = Some (Some p)
         ∧ deaccented p = invert (deaccented w).

(** From ring [from] inwards, the part of row [n - 1 - r] inside ring [r]
    reads like the part of column [r] inside the ring, top to bottom. *)
Definition turned (n from : nat) (g : Sator.t) : Prop :=
  ∀ r j, from ≤ r → r < j < n - 1 - r →
    ∃ x, letter g (n - 1 - r) j = Some x ∧ letter g j r = Some x.

(** How [iter_sator_for_central] comes to yield [g] when called with
    [running_word], [pos] and [sator]: it places the partner of
    [running_word] and yields the grid, at [pos == 0] or as a near miss;
    or it places it, asks the index for the words that fit, and the call
    for one of them that has a partner yields [g]. *)
Inductive reaches (h : Heap) (self : Satorter.t)
    : Word → nat → Sator.t → Sator.t → Prop :=
| reaches_here running_word pos sator new_id g :
    Sator.copy_with_word_in_pos h new_id sator (Inverted_get h running_word) pos = Ok g →
    pos = 0 ∨ (Z.of_nat pos ≤ Satorter.near_miss self)%Z →
    reaches h self running_word pos sator g
| reaches_deeper running_word pos sator new_id new_sator letters c g :
    Sator.copy_with_word_in_pos h new_id sator (Inverted_get h running_word) (S pos)
    = Ok new_sator →
    Satorter.required self new_sator (S pos) = Ok letters →
    c ∈ fst (WordsList.word_for_letters_in_position (Satorter.words self) letters (S pos)
               (Some (Satorter.length self))) →
    truth (Inverted_get h c) = true →
    reaches h self c pos new_sator g →
    reaches h self running_word (S pos) sator g.

(** The entries of a grid that are true: what [Sator.__hash__] sorts. *)
Definition true_entries (g : Sator.t) : list Word :=
  omap (fun w => if truth w then w else None) (Sator.content g).

(** ** Example inputs *)

(** The five words of the classical square. *)
Definition classical_words : list str :=
  [lit "sator"; lit "arepo"; lit "tenet"; lit "opera"; lit "rotas"].

(** [Satorter(WordsList(words, length), near_miss=near_miss)] from an empty
    heap, and the heap it leaves. *)
Definition satorter_for (words : list str) (length : nat) (near_miss : Z)
    : Result Satorter.t * Heap :=
  let (index, h) := WordsList.__init__ empty_heap words (Some length) in
  (Satorter.__init__ index None near_miss, h).

(** An index over "anna" and "saab": "saab" has the letters "aa" at
    position 1 and no partner. *)
Definition anna_saab : Satorter.t * Heap :=
  let (index, h) := WordsList.__init__ empty_heap [lit "anna"; lit "saab"] (Some 4) in
  ({| Satorter.words := index; Satorter.near_miss := 1;
      Satorter.length := 4; Satorter.results := [] |}, h).

(** The state after [index = WordsList(["ab"], 2)] and
    [index.words.update("ab", _inverted=Word("ba"))], and
    [Satorter(index)] over it: "ab" has the partner "ba" while "ba" has
    none. *)
Definition one_sided : Result Satorter.t * Result Heap :=
  let (index, h) := WordsList.__init__ empty_heap [lit "ab"] (Some 2) in
  let (ba, h) := Word_init h (lit "ba") in
  (Satorter.__init__ index None 0,
   DictStorage.update (WordsList.words index) h (lit "ab")
     [(DictStorage.attr__inverted, Some ba)]).

(** * Properties *)

(** ** Normalisation *)

Lemma replace_fold_map (pairs : list (N * N)) (word : str) :
  fold_left (fun word xy => replace (fst xy) (snd xy) word) pairs word
  = map (fun c => fold_left (fun c xy => if N.eqb c (fst xy) then snd xy else c) pairs c) word.
Proof.
  revert word. induction pairs as [|xy pairs IH]; intros word; simpl.
  - by rewrite map_id.
  - rewrite IH. unfold replace. by rewrite map_map.
Qed.

Lemma deaccent_map (word : str) : deaccent word = map deaccent_letter word.
Proof. apply replace_fold_map. Qed.

Lemma fold_letter_other (pairs : list (N * N)) (c : N) :
  c ∉ map fst pairs →
  fold_left (fun c xy => if N.eqb c (fst xy) then snd xy else c) pairs c = c.
Proof.
  induction pairs as [|[x y] pairs IH]; simpl; [done|].
  intros Hc. apply not_elem_of_cons in Hc as [Hx Hc].
  destruct (N.eqb_spec c x) as [->|_]; [done|]. by apply IH.
Qed.

Lemma deaccent_letter_cases (c : N) :
  (accented c ∧ ¬ accented (deaccent_letter c)) ∨ (¬ accented c ∧ deaccent_letter c = c).
Proof.
  unfold accented.
  destruct (decide (c ∈ map fst accents)) as [Hin|Hnin].
  - left. split; [done|].
    simpl in Hin. set_unfold in Hin.
    destruct_or!; subst; by apply (bool_decide_unpack _).
  - right. split; [done|]. by apply fold_letter_other.
Qed.

Lemma deaccent_letter_idem (c : N) : deaccent_letter (deaccent_letter c) = deaccent_letter c.
Proof.
  destruct (deaccent_letter_cases c) as [[_ H]|[_ E]].
  - destruct (deaccent_letter_cases (deaccent_letter c)) as [[H' _]|[_ H']];
      [by destruct H | exact H'].
  - by rewrite !E.
Qed.

Lemma deaccent_length (s : str) : List.length (deaccent s) = List.length s.
Proof. by rewrite deaccent_map, length_map. Qed.

Lemma deaccent_lookup (s : str) (i : nat) :
  deaccent s !! i = deaccent_letter <$> s !! i.
Proof.
  rewrite deaccent_map. change (map deaccent_letter s) with (deaccent_letter <$> s).
  apply list_lookup_fmap.
Qed.

Lemma deaccent_idem  (s : str) : deaccent (deaccent s) = deaccent s.
Proof.
  rewrite !deaccent_map, map_map. apply map_ext. intros. apply deaccent_letter_idem.
Qed.

Lemma deaccent_unaccented (s : str) :
  (∀ c, c ∈ s → ¬ accented c) → deaccent s = s.
Proof.
  intros H. rewrite deaccent_map. rewrite <- (map_id s) at 2.
  apply map_ext_in. intros c Hc. apply list_elem_of_In in Hc.
  destruct (deaccent_letter_cases c) as [[? _]|[_ ?]]; [|done].
  by destruct (H c Hc).
Qed.

(** ** The [inverted] descriptor *)

Lemma invert_involutive (s : str) : invert (invert s) = s.
Proof. apply rev_involutive. Qed.

(** With a partner given, the setter stores it and, when the partner has
    none, stores the object as the partner's; the nested call stops there. *)
Lemma Inverted_set_fuel_Some (fuel : nat) (h : Heap) (obj v : Word) :
  Inverted_set_fuel (S fuel) h obj (Some v)
  = let h1 := store_inverted h obj (Some v) in
    match Inverted_get h1 v with
    | Some _ => h1
    | None => store_inverted h1 v (Some obj)
    end.
Proof.
  cbn [Inverted_set_fuel]. cbv zeta.
  destruct (Inverted_get (store_inverted h obj (Some v)) v) eqn:E; [done|].
  assert (is_Some (Inverted_get
            (store_inverted (store_inverted h obj (Some v)) v (Some obj)) obj)) as [q Hq].
  { unfold Inverted_get, store_inverted; simpl.
    destruct (decide (wid v = wid obj)) as [Heq|Hne].
    - rewrite Heq, lookup_insert_eq. eauto.
    - rewrite lookup_insert_ne, lookup_insert_eq by done. eauto. }
  destruct fuel; simpl; by rewrite Hq.
Qed.

Lemma Inverted_set_fuel_stable (fuel : nat) (h : Heap) (obj : Word) (value : option Word) :
  Inverted_set_fuel (S fuel) h obj value = Inverted_set h obj value.
Proof.
  unfold Inverted_set. destruct value as [v|]; [|done].
  by rewrite !Inverted_set_fuel_Some.
Qed.

Lemma Inverted_set_Some (h : Heap) (obj v : Word) :
  Inverted_set h obj (Some v)
  = let h1 := store_inverted h obj (Some v) in
    match Inverted_get h1 v with
    | Some _ => h1
    | None => store_inverted h1 v (Some obj)
    end.
Proof. apply Inverted_set_fuel_Some. Qed.

Lemma Inverted_set_allocated (h : Heap) (obj : Word) (value : option Word) :
  allocated (Inverted_set h obj value) = allocated h.
Proof.
  destruct value as [v|]; [|done].
  rewrite Inverted_set_Some. cbv zeta.
  by destruct (Inverted_get _ v).
Qed.

(** ** The heap invariant *)

Lemma heap_wf_empty : heap_wf empty_heap.
Proof. split; intros i w; simpl; [by rewrite lookup_nil | by rewrite lookup_empty]. Qed.

(** Setting a partner whose deaccented form is the reverse of the object's
    keeps the heap well formed. *)
Lemma heap_wf_Inverted_set (h : Heap) (obj v : Word) :
  heap_wf h →
  allocated h !! wid obj = Some obj →
  allocated h !! wid v = Some v →
  deaccented v = invert (deaccented obj) →
  heap_wf (Inverted_set h obj (Some v)).
Proof.
  intros [Hid Hinv] Hobj Hv Hrev.
  assert (deaccented obj = invert (deaccented v)) as Hrev'.
  { by rewrite Hrev, invert_involutive. }
  rewrite Inverted_set_Some. cbv zeta.
  destruct (Inverted_get (store_inverted h obj (Some v)) v) as [q|] eqn:E;
    unfold Inverted_get, store_inverted in *; simpl in *; (split; [done|]); simpl.
  - intros i p Hi. rewrite lookup_insert in Hi. case_decide as Hc.
    + simplify_eq. exists obj. repeat split; eauto.
    + destruct (Hinv i p Hi) as (w & Hw & Hp & Hd & Hs). exists w.
      repeat split; try done.
      rewrite lookup_insert. by case_decide.
  - intros i p Hi. rewrite !lookup_insert in Hi.
    assert (∀ j, is_Some (_inverted h !! j) →
                 is_Some (<[wid v:=obj]> (<[wid obj:=v]> (_inverted h)) !! j)) as Hmono.
    { intros j Hj. rewrite !lookup_insert. by repeat case_decide. }
    case_decide as Hc1; [|case_decide as Hc2].
    + simplify_eq. exists v. repeat split; try done.
      rewrite !lookup_insert. repeat case_decide; try done; eauto.
    + simplify_eq. exists obj. repeat split; try done.
      rewrite lookup_insert_eq. eauto.
    + destruct (Hinv i p Hi) as (w & Hw & Hp & Hd & Hs). exists w.
      repeat split; try done. by apply Hmono.
Qed.


Lemma Word_init_spec (h : Heap) (o : str) :
  heap_wf h →
  let self := mkWord (List.length (allocated h)) o in
  fst (Word_init h o) = self
  ∧ allocated (snd (Word_init h o)) = allocated h ++ [self]
  ∧ heap_wf (snd (Word_init h o)).
Proof.
  intros Hwf self.
  assert (heap_wf {| allocated := allocated h ++ [self]; _inverted := _inverted h |}) as Hwf1.
  { destruct Hwf as [Hid Hinv]. split; simpl.
    - intros i w Hi. apply lookup_app_Some in Hi as [Hi|[Hlen Hi]]; [by apply Hid|].
      apply list_lookup_singleton_Some in Hi as [Hi <-]. simpl. lia.
    - intros i p Hi. destruct (Hinv i p Hi) as (w & Hw & Hp & Hd & Hs). exists w.
      repeat split; try done; by apply lookup_app_l_Some. }
  unfold Word_init. fold self.
  destruct (is_symmetrical self) eqn:Hsym; simpl; [|done].
  rewrite Inverted_set_allocated. simpl. split; [done|]. split; [done|].
  assert (allocated {| allocated := allocated h ++ [self]; _inverted := _inverted h |}
            !! wid self = Some self) as Hself.
  { simpl. rewrite lookup_app_r by done. by rewrite Nat.sub_diag. }
  apply heap_wf_Inverted_set; try done.
  unfold is_symmetrical in Hsym. by apply bool_decide_eq_true in Hsym.
Qed.

(** ** [DictStorage] *)

Lemma DictStorage_get_elem (content : DictStorage.t) (k : str) (v : Word) :
  DictStorage.get content k = Some v → (k, v) ∈ content.
Proof.
  induction content as [|[k' v'] rest IH]; simpl; [done|].
  case_bool_decide as Hk.
  - intros [= ->]. subst. apply list_elem_of_here.
  - intros H. apply list_elem_of_further. by apply IH.
Qed.

Lemma DictStorage_get_key (content : DictStorage.t) (k : str) :
  k ∈ map fst content → is_Some (DictStorage.get content k).
Proof.
  induction content as [|[k' v'] rest IH]; simpl.
  - by intros ?%elem_of_nil.
  - intros Hk. case_bool_decide; [eauto|].
    apply elem_of_cons in Hk as [Hk|Hk]; [done|]. by apply IH.
Qed.

Lemma DictStorage_set_elem (content : DictStorage.t) (k k' : str) (v v' : Word) :
  (k, v) ∈ DictStorage.set content k' v' → (k, v) = (k', v') ∨ (k, v) ∈ content.
Proof.
  induction content as [|[k0 v0] rest IH]; simpl.
  - intros ?%list_elem_of_singleton. by left.
  - case_bool_decide as Hk.
    + intros [H|H]%elem_of_cons; [left; congruence|].
      right. by apply list_elem_of_further.
    + intros [H|H]%elem_of_cons; [right; rewrite H; apply list_elem_of_here|].
      destruct (IH H) as [?|?]; [by left|].
      right. by apply list_elem_of_further.
Qed.

Lemma DictStorage_set_keys (content : DictStorage.t) (k k' : str) (v' : Word) :
  k = k' ∨ k ∈ map fst content → k ∈ map fst (DictStorage.set content k' v').
Proof.
  induction content as [|[k0 v0] rest IH]; simpl.
  - intros [->|?%elem_of_nil]; [apply list_elem_of_here | done].
  - case_bool_decide as Hk; simpl.
    + intros [->|H]; [subst; apply list_elem_of_here | done].
    + intros [->|[->|H]%elem_of_cons].
      * apply list_elem_of_further, IH. by left.
      * apply list_elem_of_here.
      * apply list_elem_of_further, IH. by right.
Qed.

(** ** [register_word_letter_and_position] *)

Lemma set_add_elem (x y : str) (s : list str) :
  y ∈ WordsList.set_add x s → y = x ∨ y ∈ s.
Proof.
  unfold WordsList.set_add. case_bool_decide; [by right|].
  intros [?|?%list_elem_of_singleton]%elem_of_app; [by right | by left].
Qed.

Lemma register_letter_elem (deacc : str) lp (pl : nat * N) (key : N * nat) (item : str) :
  item ∈ default [] (WordsList.register_letter deacc lp pl !! key) →
  item = deacc ∨ item ∈ default [] (lp !! key).
Proof.
  unfold WordsList.register_letter.
  destruct (decide ((pl.2, pl.1) = key)) as [<-|Hne].
  - rewrite lookup_insert_eq. simpl. intros H%set_add_elem.
    destruct H as [?|H]; [by left|]. right.
    destruct (lp !! (pl.2, pl.1)) eqn:E; [by rewrite E in H|].
    by rewrite lookup_insert_eq in H.
  - rewrite lookup_insert_ne by done.
    destruct (lp !! (pl.2, pl.1)) eqn:E; [by right|].
    rewrite lookup_insert_ne by done. by right.
Qed.

Lemma register_elem (self : WordsList.t) (word : Word) (key : N * nat) (item : str) :
  item ∈ default [] (WordsList.l_and_p
                       (WordsList.register_word_letter_and_position self word) !! key) →
  item = deaccented word ∨ item ∈ default [] (WordsList.l_and_p self !! key).
Proof.
  unfold WordsList.register_word_letter_and_position. simpl.
  generalize (imap (λ (pos : nat) (letter : N), (pos, letter)) (deaccented word)).
  intros pls. generalize (WordsList.l_and_p self) as lp.
  induction pls as [|pl pls IH]; intros lp; simpl; [by right|].
  intros H. destruct (IH _ H) as [?|H']; [by left|].
  by apply register_letter_elem in H'.
Qed.

(** ** [setup] *)

Lemma setup_step_fields (st : WordsList.t * Heap) (word_str : str) :
  WordsList._words (fst (WordsList.setup_step st word_str)) = WordsList._words (fst st)
  ∧ WordsList.length (fst (WordsList.setup_step st word_str)) = WordsList.length (fst st).
Proof.
  destruct st as [self h]. unfold WordsList.setup_step.
  destruct (Word_init h word_str) as [word h1].
  by destruct (truth _).
Qed.

Lemma setup_step_index_wf (self : WordsList.t) (h : Heap) (word_str : str) :
  index_wf self → index_wf (fst (WordsList.setup_step (self, h) word_str)).
Proof.
  intros [Hwords Hlp]. unfold WordsList.setup_step.
  destruct (Word_init h word_str) as [word h1].
  set (self1 := WordsList.register_word_letter_and_position _ word).
  assert (index_wf self1) as Hidx1.
  { split.
    - by intros k v [[= -> ->]|Hin]%DictStorage_set_elem; [|apply Hwords].
    - intros key item [->|Hin]%register_elem; simpl.
      + apply DictStorage_set_keys. by left.
      + apply DictStorage_set_keys. right. by apply (Hlp key). }
  by destruct (truth _).
Qed.

Lemma setup_step_heap_wf (self : WordsList.t) (h : Heap) (word_str : str) :
  heap_wf h → index_wf self → index_allocated self h →
  let st := WordsList.setup_step (self, h) word_str in
  heap_wf (snd st) ∧ index_allocated (fst st) (snd st).
Proof.
  intros Hwf [Hwords Hlp] Hheap. unfold WordsList.setup_step.
  destruct (Word_init_spec h word_str Hwf) as (Hself & Halloc & Hwf1).
  destruct (Word_init h word_str) as [word h1]. simpl in Hself, Halloc, Hwf1.
  set (self1 := WordsList.register_word_letter_and_position _ word).
  assert (allocated h1 !! wid word = Some word) as Hword.
  { rewrite Halloc, Hself. simpl. rewrite lookup_app_r by done.
    by rewrite Nat.sub_diag. }
  assert (index_allocated self1 h1) as Hheap1.
  { intros k v [[= -> ->]|Hin]%DictStorage_set_elem; [done|].
    rewrite Halloc. apply lookup_app_l_Some. by apply (Hheap k). }
  assert (∀ k v, (k, v) ∈ WordsList.words self1 → deaccented v = k) as Hwords1.
  { by intros k v [[= -> ->]|Hin]%DictStorage_set_elem; [|apply Hwords]. }
  destruct (DictStorage.get (WordsList.words self1) (invert (deaccented word)))
    as [inverted|] eqn:Hget; simpl; [|done].
  destruct (negb (Word_len inverted =? 0)); simpl; [|done].
  apply DictStorage_get_elem in Hget.
  split; [apply heap_wf_Inverted_set; eauto|].
  intros k v Hin. rewrite Inverted_set_allocated. by apply (Hheap1 k).
Qed.

Lemma setup_fold_wf (todo : list str) (self : WordsList.t) (h : Heap) :
  index_wf self →
  let st := fold_left WordsList.setup_step todo (self, h) in
  index_wf (fst st)
  ∧ WordsList._words (fst st) = WordsList._words self
  ∧ WordsList.length (fst st) = WordsList.length self
  ∧ (heap_wf h → index_allocated self h →
     heap_wf (snd st) ∧ index_allocated (fst st) (snd st)).
Proof.
  revert self h.
  induction todo as [|word_str todo IH]; intros self h Hidx; cbn [fold_left];
    [by split_and!|].
  pose proof (setup_step_index_wf self h word_str Hidx) as Hidx1.
  pose proof (setup_step_heap_wf self h word_str) as Hheap1.
  destruct (setup_step_fields (self, h) word_str) as [Hw1 Hl1].
  destruct (WordsList.setup_step (self, h) word_str) as [self1 h1].
  destruct (IH self1 h1 Hidx1) as (Hidx2 & Hw2 & Hl2 & Hheap2).
  split_and!; try done; simpl in *; try congruence.
  intros Hwf Hheap. apply Hheap2; by apply Hheap1.
Qed.

(** The index and the heap that [WordsList(words, length)] leaves. *)
Lemma WordsList_init_wf (h : Heap) (words : list str) (length : option nat) :
  let st := WordsList.__init__ h words length in
  index_wf (fst st)
  ∧ WordsList._words (fst st)
    = filter (fun w => negb (int_truth length) || int_eq (List.length w) length)
        (sorted str_ltb words)
  ∧ WordsList.length (fst st) = length
  ∧ (heap_wf h → heap_wf (snd st) ∧ index_allocated (fst st) (snd st)).
Proof.
  unfold WordsList.__init__, WordsList.setup. cbn [WordsList._words].
  match goal with
  | |- context [fold_left _ ?todo (?self, _)] =>
      destruct (setup_fold_wf todo self h) as (Hidx & Hw & Hl & Hheap)
  end.
  - split; simpl.
    + by intros k v ?%elem_of_nil.
    + intros key item. rewrite lookup_empty. by intros ?%elem_of_nil.
  - split_and!; try done. intros Hwf. apply Hheap; [done|].
    by intros k v ?%elem_of_nil.
Qed.

(** ** [word_for_letters_in_position] *)

Lemma matching_sound (self : WordsList.t) (letters : str) (position : nat)
    (length : option nat) (items : list str) (w : Word) :
  index_wf self →
  w ∈ fst (WordsList.matching self letters position length items) →
  py_slice (deaccented w) (Z.of_nat position)
    (Z.of_nat position + Z.of_nat (List.length letters)) = letters
  ∧ (int_truth length = true → int_eq (Word_len w) length = true).
Proof.
  intros [Hwords _]. induction items as [|item items IH]; simpl.
  - by intros ?%elem_of_nil.
  - destruct (int_truth length && negb (int_eq (List.length item) length)) eqn:Hlen;
      [done|].
    destruct (DictStorage.get (WordsList.words self) item) as [candidate|] eqn:Hget;
      [|by intros ?%elem_of_nil].
    case_bool_decide as Hslice; [|done].
    destruct (WordsList.matching self letters position length items) as [ys e].
    simpl in *. intros [->|Hin]%elem_of_cons; [|by apply IH].
    split; [done|]. intros Htruth. rewrite Htruth in Hlen. simpl in Hlen.
    apply negb_false_iff in Hlen.
    apply DictStorage_get_elem, Hwords in Hget as Hk.
    unfold Word_len. by rewrite Hk.
Qed.

Lemma matching_total (self : WordsList.t) (letters : str) (position : nat)
    (length : option nat) (items : list str) :
  (∀ item, item ∈ items → item ∈ map fst (WordsList.words self)) →
  snd (WordsList.matching self letters position length items) = None.
Proof.
  induction items as [|item items IH]; intros Hitems; simpl; [done|].
  assert (snd (WordsList.matching self letters position length items) = None) as IH'.
  { apply IH. intros ??. apply Hitems. by apply list_elem_of_further. }
  destruct (int_truth length && negb (int_eq (List.length item) length)); [done|].
  destruct (DictStorage_get_key (WordsList.words self) item) as [candidate ->].
  { apply Hitems, list_elem_of_here. }
  case_bool_decide; [|done].
  by destruct (WordsList.matching self letters position length items).
Qed.

Lemma word_for_letters_in_position_total (self : WordsList.t)
    (letters : str) (position : nat) (length : option nat) :
  index_wf self → letters ≠ [] →
  snd (WordsList.word_for_letters_in_position self letters position length) = None.
Proof.
  intros [_ Hlp] Hne. unfold WordsList.word_for_letters_in_position.
  destruct letters as [|letter0 rest]; [done|]. cbn [py_getitem py_index].
  simpl. apply matching_total. intros item. apply Hlp.
Qed.


(** ** Python indexing *)

Lemma py_index_nat (n i : nat) : i < n → py_index n (Z.of_nat i) = Some i.
Proof.
  intros Hi. unfold py_index.
  destruct (Z.leb_spec 0 (Z.of_nat i)); [|lia].
  destruct (Z.ltb_spec (Z.of_nat i) (Z.of_nat n)); [|lia].
  by rewrite Nat2Z.id.
Qed.

Lemma py_index_mirror (n pos : nat) :
  pos < n → py_index n (Z.of_nat n - Z.of_nat pos - 1) = Some (n - 1 - pos).
Proof.
  intros Hi. replace (Z.of_nat n - Z.of_nat pos - 1)%Z with (Z.of_nat (n - 1 - pos)) by lia.
  apply py_index_nat. lia.
Qed.


Lemma py_setitem_length {A} (l l' : list A) (i : Z) (v : A) :
  py_setitem l i v = Some l' → List.length l' = List.length l.
Proof.
  unfold py_setitem. destruct (py_index _ i); [|done].
  intros [= <-]. apply length_insert.
Qed.

(** ** Placement in a grid *)

Lemma Sator_copy_ok (new_id : nat) (g : Sator.t) :
  List.length (Sator.content g) = Sator.length g →
  Sator.__copy__ new_id g
  = Ok {| Sator.id := new_id; Sator.length := Sator.length g;
          Sator.content := Sator.content g |}.
Proof.
  intros Hlen. unfold Sator.__copy__, Sator.__init__.
  destruct (Sator.content g) as [|w ws] eqn:E.
  - simpl in Hlen. by rewrite <- Hlen.
  - rewrite Hlen. by rewrite Nat.eqb_refl.
Qed.

Lemma truth_Some (p : Word) : truth (Some p) = true ↔ Word_len p ≠ 0.
Proof.
  unfold truth. destruct (Nat.eqb_spec (Word_len p) 0); simpl; split; intros; done.
Qed.

Lemma Sator_setitem_ok (h : Heap) (g : Sator.t) (pos : nat) (w p : Word) :
  List.length (Sator.content g) = Sator.length g →
  pos < Sator.length g →
  Inverted_get h w = Some p →
  Word_len p ≠ 0 →
  Sator.__setitem__ h g pos (Some w)
  = Ok {| Sator.id := Sator.id g; Sator.length := Sator.length g;
          Sator.content :=
            if 2 * pos + 1 =? Sator.length g
            then <[pos := Some w]> (Sator.content g)
            else <[Sator.length g - 1 - pos := Some p]>
                   (<[pos := Some w]> (Sator.content g)) |}.
Proof.
  intros Hlen Hpos Hp Hne. apply truth_Some in Hne.
  unfold Sator.__setitem__. rewrite Hp, Hne. cbn [negb].
  unfold py_setitem. rewrite Hlen, py_index_nat by done.
  destruct (2 * pos + 1 =? Sator.length g); cbn [negb]; [done|].
  by rewrite length_insert, Hlen, py_index_mirror.
Qed.

Lemma py_slice_nat {A} (l : list A) (lo hi : nat) :
  py_slice l (Z.of_nat lo) (Z.of_nat hi)
  = take (Nat.min hi (List.length l) - Nat.min lo (List.length l))
      (drop (Nat.min lo (List.length l)) l).
Proof.
  unfold py_slice, py_bound.
  destruct (Z.leb_spec 0 (Z.of_nat lo)); [|lia].
  destruct (Z.leb_spec 0 (Z.of_nat hi)); [|lia].
  by rewrite !Nat2Z.id.
Qed.

Lemma py_slice_ring {A} (l : list A) (n pos : nat) :
  List.length l = n → 2 * pos ≤ n →
  py_slice l (Z.of_nat pos) (Z.of_nat n - Z.of_nat pos) = take (n - 2 * pos) (drop pos l).
Proof.
  intros Hlen Hpos.
  replace (Z.of_nat n - Z.of_nat pos)%Z with (Z.of_nat (n - pos)) by lia.
  rewrite py_slice_nat, Hlen. f_equal; [lia|]. f_equal. lia.
Qed.

(** ** The search *)

Lemma column_length (pos : nat) (rows : list (option Word)) (letters : str) :
  Satorter.column pos rows = Ok letters → List.length letters = List.length rows.
Proof.
  revert letters. induction rows as [|[w|] rows IH]; intros letters; simpl.
  - by intros [= <-].
  - destruct (py_getitem _ _); [|done].
    destruct (Satorter.column pos rows) as [cs|]; [|done].
    intros [= <-]. simpl. f_equal. by apply IH.
  - done.
Qed.

Lemma column_line (pos : nat) (rows : list (option Word)) (e : Exn) :
  Satorter.column pos rows = Raise e → line e = 216.
Proof.
  induction rows as [|[w|] rows IH]; simpl; [done| |by intros [= <-]].
  destruct (py_getitem _ _); [|by intros [= <-]].
  destruct (Satorter.column pos rows) as [cs|e']; [done|].
  intros [= <-]. by apply IH.
Qed.

Lemma required_length (self : Satorter.t) (new_sator : Sator.t) (pos : nat) (letters : str) :
  List.length (Sator.content new_sator) = Satorter.length self →
  pos ≤ Satorter.middle_pos self →
  1 ≤ Satorter.length self →
  Satorter.required self new_sator pos = Ok letters →
  List.length letters = Satorter.length self - 2 * pos
  ∧ 1 ≤ Satorter.length self - 2 * pos.
Proof.
  unfold Satorter.required, Satorter.middle_pos, Sator.__getitem__.
  intros Hlen Hpos Hn Hreq.
  assert (2 * pos + 1 ≤ Satorter.length self) as Hring.
  { pose proof (Nat.div_mod_eq (Satorter.length self + 1) 2) as Hd.
    pose proof (Nat.mod_upper_bound (Satorter.length self + 1) 2). lia. }
  split; [|lia].
  rewrite py_slice_ring in Hreq by (done || lia).
  apply column_length in Hreq. rewrite Hreq, length_take, length_drop. lia.
Qed.

Lemma candidates_no_partner (h : Heap) (rec : Word → nat → Trace Sator.t * nat)
    (cands : list Word) (no_words : bool) (next_id : nat) :
  (∀ c, c ∈ cands → truth (Inverted_get h c) = false) →
  Satorter.candidates h rec cands no_words next_id = ([], None, no_words, next_id).
Proof.
  induction cands as [|c cands IH]; intros Hnone; simpl; [done|].
  rewrite (Hnone c) by apply list_elem_of_here. simpl.
  apply IH. intros ??. apply Hnone. by apply list_elem_of_further.
Qed.

Lemma candidates_fault (h : Heap) (rec : Word → nat → Trace Sator.t * nat)
    (bad : Exn) (cands : list Word) (no_words : bool) (next_id : nat) :
  (∀ c n, snd (fst (rec c n)) ≠ Some bad) →
  snd (fst (fst (Satorter.candidates h rec cands no_words next_id))) ≠ Some bad.
Proof.
  intros Hrec. revert no_words next_id.
  induction cands as [|c cands IH]; intros no_words next_id; simpl; [done|].
  destruct (negb (truth (Inverted_get h c))); [apply IH|].
  specialize (Hrec c next_id).
  destruct (rec c next_id) as [[inner [e|]] n1]; simpl in *; [done|].
  specialize (IH false n1).
  by destruct (Satorter.candidates h rec cands false n1) as [[[ys e'] nw] n2].
Qed.

Lemma iter_sator_for_central_at_eq (h : Heap) (self : Satorter.t) (running_word : Word)
    (pos : nat) (sator : Sator.t) (next_id : nat) :
  Satorter.iter_sator_for_central_at h self running_word pos sator next_id
  = match Sator.copy_with_word_in_pos h next_id sator
            (Inverted_get h running_word) pos with
    | Raise e => (([], Some e), S next_id)
    | Ok new_sator =>
        match pos with
        | 0 => (([new_sator], None), S next_id)
        | S pos' =>
            match Satorter.required self new_sator pos with
            | Raise e => (([], Some e), S next_id)
            | Ok letters =>
                let (running_words, stopped) :=
                  WordsList.word_for_letters_in_position (Satorter.words self) letters pos
                    (Some (Satorter.length self)) in
                let '(ys, e, no_words, next_id) :=
                  Satorter.candidates h
                    (fun running_word =>
                       Satorter.iter_sator_for_central_at h self running_word pos' new_sator)
                    running_words true (S next_id) in
                match e, stopped with
                | Some e, _ => ((ys, Some e), next_id)
                | None, Some e => ((ys, Some e), next_id)
                | None, None =>
                    if no_words && (Z.of_nat pos <=? Satorter.near_miss self)%Z
                    then ((ys ++ [new_sator], None), next_id)
                    else ((ys, None), next_id)
                end
            end
        end
    end.
Proof. by destruct pos. Qed.

(** Case analysis on every test a hypothesis is stuck on. *)
Ltac split_tests :=
  repeat match goal with
         | H : context [match ?x with _ => _ end] |- _ => destruct x eqn:?
         end;
  simplify_eq.

Lemma copy_with_word_in_pos_line (h : Heap) (new_id : nat) (g : Sator.t)
    (word : option Word) (pos : nat) (e : Exn) :
  Sator.copy_with_word_in_pos h new_id g word pos = Raise e →
  line e ∈ [143; 148; 149; 151].
Proof.
  unfold Sator.copy_with_word_in_pos, Sator.__copy__, Sator.__init__, Sator.__setitem__.
  intros H. split_tests; simpl; repeat constructor.
Qed.

Lemma copy_with_word_in_pos_shape (h : Heap) (new_id : nat) (g g2 : Sator.t)
    (word : option Word) (pos : nat) :
  List.length (Sator.content g) = Sator.length g →
  Sator.copy_with_word_in_pos h new_id g word pos = Ok g2 →
  Sator.id g2 = new_id
  ∧ Sator.length g2 = Sator.length g
  ∧ List.length (Sator.content g2) = Sator.length g.
Proof.
  intros Hlen. unfold Sator.copy_with_word_in_pos. rewrite Sator_copy_ok by done.
  unfold Sator.__setitem__. simpl. intros H.
  split_tests; simpl; split_and!; try done;
    repeat match goal with
           | H : py_setitem _ _ _ = Some _ |- _ => apply py_setitem_length in H
           end; congruence.
Qed.

Lemma matching_fault (self : WordsList.t) (letters : str) (position : nat)
    (length : option nat) (items : list str) (e : Exn) :
  snd (WordsList.matching self letters position length items) = Some e →
  e = mkExn AttributeError 82.
Proof.
  induction items as [|item items IH]; simpl; [done|].
  destruct (int_truth length && negb (int_eq (List.length item) length)); [done|].
  destruct (DictStorage.get (WordsList.words self) item); [|by intros [= <-]].
  case_bool_decide; [|done].
  by destruct (WordsList.matching self letters position length items).
Qed.

(** The pattern the search asks the index about is never empty. *)
Lemma search_pattern_nonempty (h : Heap) (self : Satorter.t) (pos : nat) :
  1 ≤ Satorter.length self →
  pos ≤ Satorter.middle_pos self →
  ∀ (running_word : Word) (sator : Sator.t) (next_id : nat),
    List.length (Sator.content sator) = Sator.length sator →
    Sator.length sator = Satorter.length self →
    snd (fst (Satorter.iter_sator_for_central_at h self running_word pos sator next_id))
    ≠ Some (mkExn IndexError 78).
Proof.
  intros Hn. induction pos as [|pos' IH]; intros Hpos running_word sator next_id Hlen Hside;
    rewrite iter_sator_for_central_at_eq.
  - destruct (Sator.copy_with_word_in_pos _ _ _ _ _) as [new_sator|e] eqn:Hcopy; [done|].
    apply copy_with_word_in_pos_line in Hcopy. simpl. intros [= ->].
    revert Hcopy. by apply (bool_decide_unpack _).
  - destruct (Sator.copy_with_word_in_pos _ _ _ _ _) as [new_sator|e] eqn:Hcopy.
    2:{ apply copy_with_word_in_pos_line in Hcopy. simpl. intros [= ->].
        revert Hcopy. by apply (bool_decide_unpack _). }
    apply copy_with_word_in_pos_shape in Hcopy as (_ & Hside' & Hlen'); [|done].
    destruct (Satorter.required self new_sator (S pos')) as [letters|e] eqn:Hreq.
    2:{ apply column_line in Hreq. simpl. intros [= ->]. done. }
    apply required_length in Hreq as [Hletters Hring]; [|congruence|done|done].
    destruct (WordsList.word_for_letters_in_position _ _ _ _) as [running_words stopped] eqn:Hw.
    assert (stopped ≠ Some (mkExn IndexError 78)) as Hstopped.
    { unfold WordsList.word_for_letters_in_position in Hw.
      destruct letters as [|letter0 rest]; [simpl in Hletters; lia|].
      cbn [py_getitem py_index] in Hw. simpl in Hw.
      intros ->. apply (f_equal snd) in Hw. simpl in Hw. by apply matching_fault in Hw. }
    pose proof (candidates_fault h
      (fun running_word => Satorter.iter_sator_for_central_at h self running_word pos' new_sator)
      (mkExn IndexError 78) running_words true (S next_id)) as Hc.
    destruct (Satorter.candidates _ _ _ _ _) as [[[ys e] no_words] n1].
    simpl in Hc.
    assert (e ≠ Some (mkExn IndexError 78)) as He.
    { apply Hc. intros c n. apply IH; [lia| |]; congruence. }
    destruct e as [e|]; [simpl; congruence|].
    destruct stopped as [e|]; [simpl; congruence|].
    by destruct (no_words && _).
Qed.

(** ** Grids without empty slots *)

Lemma py_index_Some_nat (n pos k : nat) :
  py_index n (Z.of_nat pos) = Some k → k = pos ∧ pos < n.
Proof.
  unfold py_index.
  destruct (Z.leb_spec 0 (Z.of_nat pos)); [|lia].
  destruct (Z.ltb_spec (Z.of_nat pos) (Z.of_nat n)); [|done].
  intros [= <-]. lia.
Qed.

(** What a placement that succeeds has done. *)
Lemma copy_with_word_in_pos_inv (h : Heap) (new_id : nat) (g g2 : Sator.t)
    (word : option Word) (pos : nat) :
  List.length (Sator.content g) = Sator.length g →
  Sator.copy_with_word_in_pos h new_id g word pos = Ok g2 →
  ∃ w p, word = Some w ∧ Inverted_get h w = Some p ∧ Word_len p ≠ 0
    ∧ pos < Sator.length g
    ∧ g2 = {| Sator.id := new_id; Sator.length := Sator.length g;
              Sator.content :=
                if 2 * pos + 1 =? Sator.length g
                then <[pos := Some w]> (Sator.content g)
                else <[Sator.length g - 1 - pos := Some p]>
                       (<[pos := Some w]> (Sator.content g)) |}.
Proof.
  intros Hlen Hcopy.
  assert (∃ w p, word = Some w ∧ Inverted_get h w = Some p ∧ Word_len p ≠ 0
                 ∧ pos < Sator.length g) as (w & p & -> & Hp & Hne & Hpos).
  { unfold Sator.copy_with_word_in_pos in Hcopy. rewrite Sator_copy_ok in Hcopy by done.
    unfold Sator.__setitem__ in Hcopy. cbn [Sator.content Sator.length Sator.id] in Hcopy.
    destruct word as [w|]; [|done]. exists w.
    destruct (Inverted_get h w) as [p|] eqn:Hp; [|done]. exists p.
    destruct (truth (Some p)) eqn:Ht; [|done]. apply truth_Some in Ht.
    cbn [negb] in Hcopy. unfold py_setitem in Hcopy at 1.
    destruct (py_index _ (Z.of_nat pos)) as [k|] eqn:Hk; [|done].
    apply py_index_Some_nat in Hk as [-> Hk]. split_and!; try done. lia. }
  exists w, p. split_and!; try done.
  unfold Sator.copy_with_word_in_pos in Hcopy. rewrite Sator_copy_ok in Hcopy by done.
  rewrite (Sator_setitem_ok h _ pos w p) in Hcopy by done. by injection Hcopy as <-.
Qed.

Lemma candidates_yields (h : Heap) (rec : Word → nat → Trace Sator.t * nat)
    (P : Sator.t → Prop) (cands : list Word) (no_words : bool) (next_id : nat) :
  (∀ c n g, g ∈ fst (fst (rec c n)) → P g) →
  ∀ g, g ∈ fst (fst (fst (Satorter.candidates h rec cands no_words next_id))) → P g.
Proof.
  intros Hrec. revert no_words next_id.
  induction cands as [|c cands IH]; intros no_words next_id g; simpl.
  - by intros ?%elem_of_nil.
  - destruct (negb (truth (Inverted_get h c))); [apply IH|].
    specialize (Hrec c next_id).
    destruct (rec c next_id) as [[inner [e|]] n1]; simpl in *; [apply Hrec|].
    specialize (IH false n1).
    destruct (Satorter.candidates h rec cands false n1) as [[[ys e'] nw] n2].
    simpl in *. intros [?|?]%elem_of_app; [by apply Hrec | by apply IH].
Qed.

Lemma placed_filled (content : list (option Word)) (n pos : nat) (w p : Word) :
  List.length content = n → pos < n →
  let content' := if 2 * pos + 1 =? n then <[pos := Some w]> content
                  else <[n - 1 - pos := Some p]> (<[pos := Some w]> content) in
  List.length content' = n
  ∧ ∀ j, j < n →
      j = pos ∨ j = n - 1 - pos ∨ (∃ w', content !! j = Some (Some w')) →
      ∃ w', content' !! j = Some (Some w').
Proof.
  intros Hlen Hpos. cbv zeta.
  destruct (Nat.eqb_spec (2 * pos + 1) n) as [Hmid|Hmid].
  - split; [by rewrite length_insert|]. intros j Hj Hcase.
    rewrite list_lookup_insert. case_decide as Hd; [eauto|].
    destruct Hcase as [->|[->|?]]; [| |done]; destruct Hd; lia.
  - split; [by rewrite !length_insert|]. intros j Hj Hcase.
    rewrite !list_lookup_insert, length_insert.
    repeat case_decide; eauto.
    destruct Hcase as [->|[->|?]]; [| |done]; lia.
Qed.

(** Without near misses a grid is only yielded once every ring is placed. *)
Lemma search_yields_full (h : Heap) (self : Satorter.t) (pos : nat) :
  (Satorter.near_miss self ≤ 0)%Z →
  ∀ (running_word : Word) (sator : Sator.t) (next_id : nat),
    List.length (Sator.content sator) = Sator.length sator →
    2 * pos + 1 ≤ Sator.length sator →
    (∀ j, pos < j < Sator.length sator - 1 - pos → filled sator j) →
    ∀ g, g ∈ fst (fst (Satorter.iter_sator_for_central_at h self running_word pos sator next_id)) →
      Sator.length g = Sator.length sator
      ∧ List.length (Sator.content g) = Sator.length sator
      ∧ ∀ j, j < Sator.length sator → filled g j.
Proof.
  intros Hnear. induction pos as [|pos' IH];
    intros running_word sator next_id Hlen Hring Hinner g;
    rewrite iter_sator_for_central_at_eq;
    (destruct (Sator.copy_with_word_in_pos _ _ _ _ _) as [new_sator|e] eqn:Hcopy;
       [|by intros ?%elem_of_nil]);
    apply copy_with_word_in_pos_inv in Hcopy as (w & p & _ & Hp & _ & Hpos & ->);
    try done;
    destruct (placed_filled (Sator.content sator) (Sator.length sator) _ w p Hlen Hpos)
      as [Hlen' Hfilled].
  - cbn [fst]. intros ->%list_elem_of_singleton. cbn [Sator.length Sator.content].
    split_and!; try done. intros j Hj. apply Hfilled; [done|].
    destruct (decide (j = 0)) as [->|]; [by left|].
    destruct (decide (j = Sator.length sator - 1 - 0)) as [->|]; [by right; left|].
    right; right. apply Hinner. lia.
  - set (new_sator := {| Sator.id := next_id |}).
    assert (∀ j, pos' < j < Sator.length sator - 1 - pos' → filled new_sator j) as Hinner'.
    { intros j Hj. apply Hfilled; [lia|].
      destruct (decide (j = S pos')) as [->|]; [by left|].
      destruct (decide (j = Sator.length sator - 1 - S pos')) as [->|]; [by right; left|].
      right; right. apply Hinner. lia. }
    destruct (Satorter.required self new_sator (S pos')) as [letters|e];
      [|by intros ?%elem_of_nil].
    destruct (WordsList.word_for_letters_in_position _ _ _ _) as [running_words stopped].
    pose proof (candidates_yields h
      (fun running_word => Satorter.iter_sator_for_central_at h self running_word pos' new_sator)
      (fun g => Sator.length g = Sator.length sator
                ∧ List.length (Sator.content g) = Sator.length sator
                ∧ ∀ j, j < Sator.length sator → filled g j)
      running_words true (S next_id)) as Hc.
    destruct (Satorter.candidates _ _ _ _ _) as [[[ys e] no_words] n1].
    simpl in Hc.
    assert (∀ g, g ∈ ys → Sator.length g = Sator.length sator
                ∧ List.length (Sator.content g) = Sator.length sator
                ∧ ∀ j, j < Sator.length sator → filled g j) as Hys.
    { apply Hc. intros c n g' Hg'.
      apply (IH c new_sator n); try done. simpl. lia. }
    assert ((Z.of_nat (S pos') <=? Satorter.near_miss self)%Z = false) as Hmiss.
    { apply Z.leb_gt. lia. }
    rewrite Hmiss, andb_false_r.
    destruct e as [e|]; [apply Hys|]. destruct stopped as [e|]; apply Hys.
Qed.

Lemma middle_pos_bounds (self : Satorter.t) :
  1 ≤ Satorter.length self →
  2 * Satorter.middle_pos self + 1 ≤ Satorter.length self
  ∧ Satorter.length self ≤ 2 * Satorter.middle_pos self + 2.
Proof.
  intros Hn. unfold Satorter.middle_pos.
  pose proof (Nat.div_mod_eq (Satorter.length self + 1) 2) as Hd.
  pose proof (Nat.mod_upper_bound (Satorter.length self + 1) 2). lia.
Qed.

Lemma pass_on_subset (found results : list Sator.t) (g : Sator.t) :
  g ∈ fst (Satorter.pass_on found results) → g ∈ found.
Proof.
  revert results. induction found as [|result rest IH]; intros results; simpl; [done|].
  destruct (Satorter.in_results result results).
  - intros H. apply list_elem_of_further. by apply (IH results).
  - specialize (IH (results ++ [result])).
    destruct (Satorter.pass_on rest (results ++ [result])) as [ys results']. simpl in *.
    intros [->|H]%elem_of_cons; [apply list_elem_of_here|].
    apply list_elem_of_further. by apply IH.
Qed.

Lemma seeds_yields (h : Heap) (self : Satorter.t) (P : Sator.t → Prop)
    (sator_bound : bool) (todo : list Word) (results : list Sator.t) (next_id : nat) :
  (∀ word n g,
     g ∈ fst (fst (Satorter.iter_sator_for_central h self word None None n)) → P g) →
  ∀ g, g ∈ Satorter.yielded (Satorter.seeds h self sator_bound todo results next_id) → P g.
Proof.
  intros Hiter. revert results next_id.
  induction todo as [|word rest IH]; intros results next_id g; cbn [Satorter.seeds].
  - by intros ?%elem_of_nil.
  - destruct (negb (Satorter.length self mod 2 =? 0) && negb (is_symmetrical word));
      [apply IH|].
    specialize (Hiter word next_id).
    destruct (Satorter.iter_sator_for_central h self word None None next_id)
      as [[found e] n1]. simpl in Hiter.
    pose proof (pass_on_subset found results) as Hsub.
    destruct (Satorter.pass_on found results) as [ys results1]. simpl in Hsub.
    destruct e as [e|]; [destruct sator_bound|]; simpl.
    + intros [?|?]%elem_of_app; [by apply Hiter, Hsub | by eapply IH].
    + intros ?. by apply Hiter, Hsub.
    + intros [?|?]%elem_of_app; [by apply Hiter, Hsub | by eapply IH].
Qed.


(** ** The search raises nothing over an index built by [WordsList] *)

Lemma matching_indexed (self : WordsList.t) (letters : str) (position : nat)
    (length : option nat) (items : list str) (w : Word) :
  w ∈ fst (WordsList.matching self letters position length items) →
  ∃ item, (item, w) ∈ WordsList.words self.
Proof.
  induction items as [|item items IH]; simpl.
  - by intros ?%elem_of_nil.
  - destruct (int_truth length && negb (int_eq (List.length item) length)); [done|].
    destruct (DictStorage.get (WordsList.words self) item) as [candidate|] eqn:Hget;
      [|by intros ?%elem_of_nil].
    case_bool_decide; [|done].
    destruct (WordsList.matching self letters position length items) as [ys e].
    simpl in *. intros [->|Hin]%elem_of_cons; [|by apply IH].
    exists item. by apply DictStorage_get_elem.
Qed.




Section Safety.
Variable h : Heap.
Variable self : Satorter.t.
Hypothesis Hheap : heap_wf h.
Hypothesis Hidx : index_wf (Satorter.words self).
Hypothesis Halloc : index_allocated (Satorter.words self) h.
Hypothesis Hn : 1 ≤ Satorter.length self.


End Safety.


Lemma Satorter_init_Ok (index : WordsList.t) (length : option nat) (near_miss : Z)
    (self : Satorter.t) :
  Satorter.__init__ index length near_miss = Ok self →
  Satorter.words self = index ∧ 1 ≤ Satorter.length self
  ∧ Satorter.near_miss self = near_miss ∧ Satorter.results self = [].
Proof.
  unfold Satorter.__init__.
  destruct (if int_truth (WordsList.length index) then WordsList.length index else length)
    as [[|n]|]; [done| |done].
  intros [= <-]. simpl. split_and!; try done. lia.
Qed.


(** ** The set of results filters nothing *)

Lemma new_objects_app (n0 n1 n2 : nat) (ys1 ys2 : list Sator.t) :
  new_objects n0 ys1 n1 → new_objects n1 ys2 n2 → new_objects n0 (ys1 ++ ys2) n2.
Proof.
  intros (H01 & Hin1 & Hnd1) (H12 & Hin2 & Hnd2). split_and!; [lia| |].
  - intros g [Hg|Hg]%elem_of_app; [apply Hin1 in Hg | apply Hin2 in Hg]; lia.
  - rewrite map_app. apply NoDup_app. split_and!; [done| |done].
    intros i Hi1 Hi2.
    apply list_elem_of_In, in_map_iff in Hi1 as (g1 & <- & Hg1).
    apply list_elem_of_In, in_map_iff in Hi2 as (g2 & Heq & Hg2).
    apply list_elem_of_In, Hin1 in Hg1. apply list_elem_of_In, Hin2 in Hg2. lia.
Qed.

Lemma copy_with_word_in_pos_id (h : Heap) (new_id : nat) (g g2 : Sator.t)
    (word : option Word) (pos : nat) :
  Sator.copy_with_word_in_pos h new_id g word pos = Ok g2 → Sator.id g2 = new_id.
Proof.
  unfold Sator.copy_with_word_in_pos, Sator.__copy__, Sator.__init__, Sator.__setitem__.
  intros H. by split_tests.
Qed.

Lemma candidates_new_objects (h : Heap) (rec : Word → nat → Trace Sator.t * nat)
    (cands : list Word) (no_words : bool) (next_id : nat) :
  (∀ c n, new_objects n (fst (fst (rec c n))) (snd (rec c n))) →
  new_objects next_id
    (fst (fst (fst (Satorter.candidates h rec cands no_words next_id))))
    (snd (Satorter.candidates h rec cands no_words next_id)).
Proof.
  intros Hrec. revert no_words next_id.
  induction cands as [|c cands IH]; intros no_words next_id; simpl.
  - split_and!; [done| |constructor]. by intros g ?%elem_of_nil.
  - destruct (negb (truth (Inverted_get h c))); [apply IH|].
    specialize (Hrec c next_id).
    destruct (rec c next_id) as [[inner [e|]] n1]; simpl in *; [done|].
    specialize (IH false n1).
    destruct (Satorter.candidates h rec cands false n1) as [[[ys e'] nw] n2].
    simpl in *. by eapply new_objects_app.
Qed.

Lemma search_new_objects (h : Heap) (self : Satorter.t) (pos : nat) :
  ∀ (running_word : Word) (sator : Sator.t) (next_id : nat),
    new_objects next_id
      (fst (fst (Satorter.iter_sator_for_central_at h self running_word pos sator next_id)))
      (snd (Satorter.iter_sator_for_central_at h self running_word pos sator next_id)).
Proof.
  assert (∀ n, new_objects n [] (S n)) as Hnone.
  { intros n. split_and!; [lia| |constructor]. by intros g ?%elem_of_nil. }
  assert (∀ n g, Sator.id g = n → new_objects n [g] (S n)) as Hone.
  { intros n g Hg. split_and!; [lia| |].
    - intros g' ->%list_elem_of_singleton. lia.
    - simpl. apply NoDup_singleton. }
  induction pos as [|pos' IH]; intros running_word sator next_id;
    rewrite iter_sator_for_central_at_eq;
    (destruct (Sator.copy_with_word_in_pos _ _ _ _ _) as [new_sator|e] eqn:Hcopy;
       [apply copy_with_word_in_pos_id in Hcopy|apply Hnone]).
  - by apply Hone.
  - destruct (Satorter.required self new_sator (S pos')) as [letters|e]; [|apply Hnone].
    destruct (WordsList.word_for_letters_in_position _ _ _ _) as [running_words stopped].
    pose proof (candidates_new_objects h
      (fun running_word => Satorter.iter_sator_for_central_at h self running_word pos' new_sator)
      running_words true (S next_id)) as Hc.
    destruct (Satorter.candidates _ _ _ _ _) as [[[ys e] no_words] n1].
    simpl in Hc. specialize (Hc (fun c n => IH c new_sator n)).
    assert (new_objects next_id ys n1) as Hys.
    { destruct Hc as (Hle & Hin & Hnd). split_and!; [lia| |done].
      intros g Hg. apply Hin in Hg. lia. }
    assert (new_objects next_id (ys ++ [new_sator]) n1) as Hall.
    { destruct Hc as (Hle & Hin & Hnd). split_and!; [lia| |].
      - intros g [Hg| ->%list_elem_of_singleton]%elem_of_app; [apply Hin in Hg|]; lia.
      - rewrite map_app. apply NoDup_app. split_and!; [done| |apply NoDup_singleton].
        intros i Hi ->%list_elem_of_singleton.
        apply list_elem_of_In, in_map_iff in Hi as (g & Hg & Hg').
        apply list_elem_of_In, Hin in Hg'. lia. }
    destruct e as [e|]; [done|]. destruct stopped as [e|]; [done|].
    by destruct (no_words && _).
Qed.

Lemma pass_on_all (found results : list Sator.t) :
  NoDup (map Sator.id found) →
  (∀ r g, r ∈ results → g ∈ found → Sator.id r ≠ Sator.id g) →
  Satorter.pass_on found results = (found, results ++ found).
Proof.
  revert results. induction found as [|result rest IH]; intros results Hnd Hnew; simpl.
  - by rewrite app_nil_r.
  - apply NoDup_cons in Hnd as [Hhead Hnd].
    assert (Satorter.in_results result results = false) as ->.
    { unfold Satorter.in_results. apply not_true_iff_false. intros Hex.
      apply existsb_exists in Hex as (r & Hr & Heq). apply Nat.eqb_eq in Heq.
      apply (Hnew r result); [by apply list_elem_of_In|apply list_elem_of_here|done]. }
    rewrite IH; [by rewrite <- app_assoc|done|].
    intros r g [Hr| ->%list_elem_of_singleton]%elem_of_app Hg.
    + apply Hnew; [done|by apply list_elem_of_further].
    + intros Heq. apply Hhead. rewrite Heq.
      apply list_elem_of_In, in_map, list_elem_of_In, Hg.
Qed.


(** ** [sorted] *)

Lemma insert_sorted_perm {A} (lt : A → A → bool) (x : A) (l : list A) :
  insert_sorted lt x l ≡ₚ x :: l.
Proof.
  induction l as [|y l IH]; simpl; [done|].
  destruct (lt x y); [done|]. rewrite IH. apply Permutation_swap.
Qed.

Lemma sorted_perm {A} (lt : A → A → bool) (l : list A) : sorted lt l ≡ₚ l.
Proof.
  unfold sorted. rewrite <- (app_nil_l l) at 2. generalize (@nil A) as acc.
  induction l as [|x l IH]; intros acc; simpl.
  - by rewrite app_nil_r.
  - rewrite IH, insert_sorted_perm. simpl. apply Permutation_middle.
Qed.

(** ** What the specification says of normalisation *)

(** C8. [deaccent] is idempotent, maps the one-letter string "Á" (code
    point 193) to "a" and leaves "a" as it is, and leaves every string
    that contains none of the nine accented letters unchanged. *)
Theorem deaccent_idempotent :
  (∀ s, deaccent (deaccent s) = deaccent s)
  ∧ deaccent [193%N] = lit "a"
  ∧ deaccent (lit "a") = lit "a"
  ∧ (∀ s, Forall (fun c => ¬ accented c) s → deaccent s = s).
Proof.
  split_and!; [apply deaccent_idem | done | done |].
  intros s Hs. apply deaccent_unaccented. by apply Forall_forall.
Qed.

Lemma deaccent_idempotent_witness :
  deaccent (lit "sator") = lit "sator" ∧ deaccent (deaccent [243; 193]%N) = deaccent [243; 193]%N.
Proof.
  split.
  - apply (proj2 (proj2 (proj2 deaccent_idempotent))).
    by apply (bool_decide_unpack _).
  - apply (proj1 deaccent_idempotent).
Defined.

(** C9. [deaccent] keeps the length of every string.  So the filter of
    [WordsList.__init__], which measures the raw strings, keeps what the
    same filter would keep if it measured the deaccented forms: for a
    target length [n] (a grid side, so not zero; zero, like [None], turns
    the filter off) exactly the words given whose deaccented form has [n]
    letters.  And the letter at a position of the deaccented form is the
    deaccented letter at the same position of the original. *)
Theorem deaccent_preserves_length :
  (∀ s, List.length (deaccent s) = List.length s)
  ∧ (∀ h words length,
       WordsList._words (fst (WordsList.__init__ h words length))
       = filter (fun w => negb (int_truth length)
                          || int_eq (List.length (deaccent w)) length)
           (sorted str_ltb words))
  ∧ (∀ h words n w, n ≠ 0 →
       w ∈ WordsList._words (fst (WordsList.__init__ h words (Some n)))
       ↔ w ∈ words ∧ List.length (deaccent w) = n)
  ∧ (∀ s i, deaccent s !! i = s !! i ≫= (fun c => deaccent [c] !! 0)).
Proof.
  split_and!.
  - apply deaccent_length.
  - intros h words length.
    destruct (WordsList_init_wf h words length) as (_ & -> & _).
    apply list_filter_iff. intros w. by rewrite deaccent_length.
  - intros h words n w Hn.
    destruct (WordsList_init_wf h words (Some n)) as (_ & -> & _).
    rewrite list_elem_of_filter, sorted_perm, deaccent_length.
    destruct n as [|n]; [done|]. simpl.
    destruct (Nat.eqb_spec (List.length w) (S n)); simpl; intuition done.
  - intros s i. rewrite deaccent_lookup. by destruct (s !! i).
Qed.

Lemma deaccent_preserves_length_witness :
  lit "tenet" ∈ WordsList._words
    (fst (WordsList.__init__ empty_heap [lit "tenet"; lit "anna"; [243; 112; 101; 114; 97]%N] (Some 5)))
  ↔ lit "tenet" ∈ [lit "tenet"; lit "anna"; [243; 112; 101; 114; 97]%N]
    ∧ List.length (deaccent (lit "tenet")) = 5.
Proof.
  apply (proj1 (proj2 (proj2 deaccent_preserves_length))). lia.
Defined.

(** ** What the specification says of the word index *)

(** C5. After [WordsList(words, length)], every indexed word [w] whose
    partner [p] is set has a partner [p] whose own partner [q] is set and
    equal to [w] under [Word.__eq__], and the reversal of [w]'s deaccented
    form is [p]'s deaccented form. *)
Theorem setup_partners_are_mutual (h0 : Heap) (words : list str)
    (length : option nat) (w p : Word) :
  heap_wf h0 →
  w ∈ DictStorage.__iter__ (WordsList.words (fst (WordsList.__init__ h0 words length))) →
  Inverted_get (snd (WordsList.__init__ h0 words length)) w = Some p →
  (∃ q, Inverted_get (snd (WordsList.__init__ h0 words length)) p = Some q
        ∧ Word_eq q (Some w) = true)
  ∧ invert (deaccented w) = deaccented p.
Proof.
  intros Hwf0 Hw Hp.
  destruct (WordsList_init_wf h0 words length) as (_ & _ & _ & Hheap).
  destruct (Hheap Hwf0) as [[Hid Hinv] Halloc].
  destruct (WordsList.__init__ h0 words length) as [self h]. simpl in *.
  unfold DictStorage.__iter__ in Hw. apply list_elem_of_In, in_map_iff in Hw.
  destruct Hw as ([k w'] & Heq & Hin). simpl in Heq. subst w'.
  apply list_elem_of_In, Halloc in Hin.
  unfold Inverted_get in *.
  destruct (Hinv _ _ Hp) as (w' & Hw' & Hpa & Hrev & [q Hq]).
  assert (w' = w) as -> by congruence.
  destruct (Hinv _ _ Hq) as (p' & Hp' & _ & Hrev' & _).
  assert (p' = p) as -> by congruence.
  split; [|done]. exists q. split; [done|]. simpl.
  apply bool_decide_eq_true. by rewrite Hrev', Hrev, invert_involutive.
Qed.

Lemma setup_partners_are_mutual_witness :
  (∃ q, Inverted_get (snd (WordsList.__init__ empty_heap [lit "ab"; lit "ba"] (Some 2)))
          (mkWord 1 (lit "ba")) = Some q
        ∧ Word_eq q (Some (mkWord 0 (lit "ab"))) = true)
  ∧ invert (deaccented (mkWord 0 (lit "ab"))) = deaccented (mkWord 1 (lit "ba")).
Proof.
  apply (setup_partners_are_mutual empty_heap [lit "ab"; lit "ba"] (Some 2)
           (mkWord 0 (lit "ab")) (mkWord 1 (lit "ba"))).
  - apply heap_wf_empty.
  - vm_compute. apply list_elem_of_here.
  - vm_compute. reflexivity.
Defined.

(** C7. Every word that [word_for_letters_in_position(letters, position,
    length)] yields over an index built by [WordsList(...)] has [letters]
    as the slice of its deaccented form that starts at [position] and is
    as long as [letters], and, when [length] is given and not zero, has a
    deaccented form of that length. *)
Theorem word_for_letters_in_position_matches (h0 : Heap) (words : list str)
    (fixed : option nat) (letters : str) (position : nat) (length : option nat)
    (w : Word) :
  letters ≠ [] →
  w ∈ fst (WordsList.word_for_letters_in_position
             (fst (WordsList.__init__ h0 words fixed)) letters position length) →
  py_slice (deaccented w) (Z.of_nat position)
    (Z.of_nat position + Z.of_nat (List.length letters)) = letters
  ∧ (∀ n, length = Some n → n ≠ 0 → Word_len w = n).
Proof.
  intros _ Hw.
  destruct (WordsList_init_wf h0 words fixed) as (Hidx & _).
  unfold WordsList.word_for_letters_in_position in Hw.
  destruct (py_getitem letters 0) as [letter0|]; [|by apply elem_of_nil in Hw].
  apply (matching_sound _ _ _ _ _ _ Hidx) in Hw as [Hslice Hlen].
  split; [done|]. intros n -> Hn.
  destruct n as [|n]; [done|]. specialize (Hlen eq_refl). simpl in Hlen.
  by apply Nat.eqb_eq in Hlen.
Qed.

Lemma word_for_letters_in_position_matches_witness :
  py_slice (deaccented (mkWord 2 (lit "rotas"))) 1%Z (1 + 3)%Z = lit "ota"
  ∧ (∀ n, Some 5 = Some n → n ≠ 0 → Word_len (mkWord 2 (lit "rotas")) = n).
Proof.
  apply (word_for_letters_in_position_matches empty_heap
           [lit "sator"; lit "arepo"; lit "tenet"; lit "opera"; lit "rotas"]
           (Some 5) (lit "ota") 1 (Some 5) (mkWord 2 (lit "rotas"))).
  - vm_compute. discriminate.
  - vm_compute. apply list_elem_of_here.
Defined.

(** C10. [word_for_letters_in_position] reads [letters[0]] before anything
    else, so an empty pattern ends it with an IndexError at line 78; over
    an index built by [WordsList(...)] a pattern of at least one letter
    never makes it raise; and the search only ever asks with such a
    pattern: at ring [pos], [1 <= pos <= middle_pos], the pattern it builds
    has [length - 2*pos >= 1] letters, and no exploration of a seed ends in
    that IndexError. *)
Theorem pattern_is_never_empty :
  (∀ self position length,
     WordsList.word_for_letters_in_position self [] position length
     = ([], Some (mkExn IndexError 78)))
  ∧ (∀ h0 words fixed letters position length,
       1 ≤ List.length letters →
       snd (WordsList.word_for_letters_in_position
              (fst (WordsList.__init__ h0 words fixed)) letters position length) = None)
  ∧ (∀ self new_sator pos letters,
       1 ≤ pos ≤ Satorter.middle_pos self →
       List.length (Sator.content new_sator) = Satorter.length self →
       Satorter.required self new_sator pos = Ok letters →
       List.length letters = Satorter.length self - 2 * pos
       ∧ 1 ≤ Satorter.length self - 2 * pos)
  ∧ (∀ h self running_word next_id,
       1 ≤ Satorter.length self →
       snd (fst (Satorter.iter_sator_for_central h self running_word None None next_id))
       ≠ Some (mkExn IndexError 78)).
Proof.
  split_and!.
  - done.
  - intros h0 words fixed letters position length Hlen.
    destruct (WordsList_init_wf h0 words fixed) as (Hidx & _).
    apply word_for_letters_in_position_total; [done|].
    intros ->. simpl in Hlen. lia.
  - intros self new_sator pos letters [Hpos Hmid] Hlen Hreq.
    apply (required_length self new_sator pos letters); try done.
    unfold Satorter.middle_pos in Hmid.
    destruct (Satorter.length self); [simpl in Hmid|]; lia.
  - intros h self running_word next_id Hn.
    unfold Satorter.iter_sator_for_central, Sator.__init__.
    apply search_pattern_nonempty; simpl; try done.
    apply length_replicate.
Qed.

Lemma pattern_is_never_empty_witness :
  snd (WordsList.word_for_letters_in_position
         (fst (WordsList.__init__ empty_heap classical_words (Some 5)))
         (lit "ota") 1 (Some 5)) = None
  ∧ snd (fst (Satorter.iter_sator_for_central
                (snd (WordsList.__init__ empty_heap classical_words (Some 5)))
                {| Satorter.words := fst (WordsList.__init__ empty_heap classical_words (Some 5));
                   Satorter.near_miss := 0; Satorter.length := 5; Satorter.results := [] |}
                (mkWord 4 (lit "tenet")) None None 0))
    ≠ Some (mkExn IndexError 78).
Proof.
  split.
  - apply (proj1 (proj2 pattern_is_never_empty)). vm_compute. lia.
  - apply (proj2 (proj2 (proj2 pattern_is_never_empty))). vm_compute. lia.
Defined.

(** ** What the specification says of the grid *)

(** C6, as the code has it.  For a grid [g] of side [length] (its list has
    [length] slots), a position [pos < length] and a word [w] whose
    partner [p] is set and not the empty word, [g.copy_with_word_in_pos(w,
    pos)] returns a grid [g2] of the same side with [w] in slot [pos]; with
    [p] in slot [length - 1 - pos] when [2*pos + 1 != length]; with no
    other slot than [pos] changed when [2*pos + 1 == length]; and in any
    case with every slot other than [pos] and [length - 1 - pos] as it was
    in [g]. *)
Theorem copy_with_word_in_pos_places (h : Heap) (new_id : nat) (g : Sator.t)
    (w p : Word) (pos : nat) :
  List.length (Sator.content g) = Sator.length g →
  pos < Sator.length g →
  Inverted_get h w = Some p →
  Word_len p ≠ 0 →
  ∃ g2, Sator.copy_with_word_in_pos h new_id g (Some w) pos = Ok g2
    ∧ Sator.length g2 = Sator.length g
    ∧ Sator.content g2 !! pos = Some (Some w)
    ∧ (2 * pos + 1 ≠ Sator.length g →
       Sator.content g2 !! (Sator.length g - 1 - pos) = Some (Some p))
    ∧ (2 * pos + 1 = Sator.length g →
       ∀ j, j ≠ pos → Sator.content g2 !! j = Sator.content g !! j)
    ∧ (∀ j, j ≠ pos → j ≠ Sator.length g - 1 - pos →
       Sator.content g2 !! j = Sator.content g !! j).
Proof.
  intros Hlen Hpos Hp Hne. unfold Sator.copy_with_word_in_pos.
  rewrite Sator_copy_ok by done.
  rewrite (Sator_setitem_ok h _ pos w p) by done. cbn [Sator.length Sator.content].
  eexists. split; [done|]. cbn [Sator.length Sator.content].
  destruct (Nat.eqb_spec (2 * pos + 1) (Sator.length g)) as [Hmid|Hmid].
  - split_and!; try done.
    + apply list_lookup_insert_eq. lia.
    + intros _ j Hj. by apply list_lookup_insert_ne.
    + intros j Hj _. by apply list_lookup_insert_ne.
  - split_and!; try done.
    + rewrite list_lookup_insert_ne by lia. apply list_lookup_insert_eq. lia.
    + intros _. apply list_lookup_insert_eq. rewrite length_insert. lia.
    + intros j Hj Hj'. by rewrite !list_lookup_insert_ne.
Qed.

Lemma copy_with_word_in_pos_places_witness :
  ∃ g2, Sator.copy_with_word_in_pos
          (snd (WordsList.__init__ empty_heap [lit "ab"; lit "ba"] (Some 2))) 1
          {| Sator.id := 0; Sator.length := 2; Sator.content := [None; None] |}
          (Some (mkWord 0 (lit "ab"))) 0 = Ok g2
    ∧ Sator.length g2 = 2
    ∧ Sator.content g2 !! 0 = Some (Some (mkWord 0 (lit "ab")))
    ∧ (2 * 0 + 1 ≠ 2 → Sator.content g2 !! (2 - 1 - 0) = Some (Some (mkWord 1 (lit "ba"))))
    ∧ (2 * 0 + 1 = 2 → ∀ j, j ≠ 0 → Sator.content g2 !! j = [None; None] !! j)
    ∧ (∀ j, j ≠ 0 → j ≠ 2 - 1 - 0 → Sator.content g2 !! j = [None; None] !! j).
Proof.
  apply (copy_with_word_in_pos_places
           (snd (WordsList.__init__ empty_heap [lit "ab"; lit "ba"] (Some 2))) 1
           {| Sator.id := 0; Sator.length := 2; Sator.content := [None; None] |}
           (mkWord 0 (lit "ab")) (mkWord 1 (lit "ba")) 0).
  - reflexivity.
  - simpl. lia.
  - vm_compute. reflexivity.
  - vm_compute. lia.
Defined.

(** C6, as the specification states it, fails for the empty word: [Word("")] is its
    own partner, yet placing it in [Sator(1)] raises the AssertionError of
    line 148, because the assertion tests the truth of the partner and a
    [Word] of length zero is false. *)
Lemma copy_with_word_in_pos_rejects_empty_word :
  Inverted_get (snd (Word_init empty_heap [])) (fst (Word_init empty_heap []))
  = Some (fst (Word_init empty_heap []))
  ∧ Sator.__init__ 0 1 None
    = Ok {| Sator.id := 0; Sator.length := 1; Sator.content := [None] |}
  ∧ Sator.copy_with_word_in_pos (snd (Word_init empty_heap [])) 1
      {| Sator.id := 0; Sator.length := 1; Sator.content := [None] |}
      (Some (fst (Word_init empty_heap []))) 0
    = Raise (mkExn AssertionError 148).
Proof. split_and!; by vm_compute. Qed.

(** ** What the specification says of the search *)

(** C4. In [iter_sator_for_central], once the running word's partner has
    been placed (giving [new_sator]): when [pos == 0] the call yields
    [new_sator] and nothing else; when [pos > 0] and every word the index
    yields for the required pattern has no partner, the call yields
    [new_sator] alone if [near_miss >= pos] and yields nothing otherwise,
    and in both cases ends without an exception. *)
Theorem iter_sator_for_central_yields (h : Heap) (self : Satorter.t)
    (running_word : Word) (pos : nat) (sator new_sator : Sator.t) (next_id : nat) :
  Sator.copy_with_word_in_pos h next_id sator (Inverted_get h running_word) pos
  = Ok new_sator →
  (pos = 0 →
   fst (Satorter.iter_sator_for_central h self running_word (Some pos) (Some sator) next_id)
   = ([new_sator], None))
  ∧ (0 < pos →
     ∀ letters running_words,
       Satorter.required self new_sator pos = Ok letters →
       WordsList.word_for_letters_in_position (Satorter.words self) letters pos
         (Some (Satorter.length self)) = (running_words, None) →
       (∀ c, c ∈ running_words → Inverted_get h c = None) →
       fst (Satorter.iter_sator_for_central h self running_word (Some pos) (Some sator) next_id)
       = (if (Z.of_nat pos <=? Satorter.near_miss self)%Z then [new_sator] else [], None)).
Proof.
  intros Hcopy. unfold Satorter.iter_sator_for_central.
  rewrite iter_sator_for_central_at_eq, Hcopy. split.
  - by intros ->.
  - intros Hpos letters running_words Hreq Hwords Hnone.
    destruct pos as [|pos']; [lia|].
    rewrite Hreq, Hwords, candidates_no_partner.
    + cbn [andb]. by destruct (Z.of_nat (S pos') <=? Satorter.near_miss self)%Z.
    + intros c Hc. by rewrite (Hnone c Hc).
Qed.

Lemma iter_sator_for_central_yields_witness :
  fst (Satorter.iter_sator_for_central (snd anna_saab) (fst anna_saab)
         (mkWord 0 (lit "anna")) (Some 1)
         (Some {| Sator.id := 0; Sator.length := 4;
                  Sator.content := [None; None; None; None] |}) 1)
  = ([{| Sator.id := 1; Sator.length := 4;
         Sator.content := [None; Some (mkWord 0 (lit "anna"));
                           Some (mkWord 0 (lit "anna")); None] |}], None).
Proof.
  refine (proj2 (iter_sator_for_central_yields (snd anna_saab) (fst anna_saab)
                   (mkWord 0 (lit "anna")) 1 _ _ 1 _) _
            (lit "aa") [mkWord 1 (lit "saab")] _ _ _).
  - vm_compute. reflexivity.
  - lia.
  - vm_compute. reflexivity.
  - vm_compute. reflexivity.
  - intros c Hc. apply list_elem_of_singleton in Hc. subst c. vm_compute. reflexivity.
Defined.

(** ** What the generator does on three inputs *)

(** C1 on the words "ab" and "ba" at length 2: the generator yields two
    grids, [ba; ab] and [ab; ba].  They are two objects, and [Sator] has no
    [__eq__], so the second is not found in [self.results]; yet what
    [__hash__] hashes, the sorted non-null entries, is the same for both. *)
Theorem generator_yields_equal_grids :
  ∃ self g1 g2,
    fst (satorter_for [lit "ab"; lit "ba"] 2 0) = Ok self
    ∧ Satorter.yielded
        (Satorter.generator (snd (satorter_for [lit "ab"; lit "ba"] 2 0)) self false 0)
      = [g1; g2]
    ∧ Sator.content g1 = [Some (mkWord 1 (lit "ba")); Some (mkWord 0 (lit "ab"))]
    ∧ Sator.content g2 = [Some (mkWord 0 (lit "ab")); Some (mkWord 1 (lit "ba"))]
    ∧ Sator.id g1 ≠ Sator.id g2
    ∧ Sator.hash_key g1 = Sator.hash_key g2.
Proof.
  eexists _, _, _. split; [by vm_compute|]. split; [by vm_compute|].
  split_and!; by vm_compute.
Qed.

(** C2 in general: when the exploration of a seed ends in an exception [e]
    and the module has no global named [sator], the handler prints the
    traceback of [e] and then raises NameError at line 207: the run ends
    there, with that exception, whatever seeds remain. *)
Theorem generator_handler_raises (h : Heap) (self : Satorter.t) (word : Word)
    (rest : list Word) (results found : list Sator.t) (e : Exn) (next_id next_id' : nat) :
  Satorter.length self mod 2 = 0 ∨ is_symmetrical word = true →
  Satorter.iter_sator_for_central h self word None None next_id
  = ((found, Some e), next_id') →
  Satorter.seeds h self false (word :: rest) results next_id
  = Satorter.mkRun (fst (Satorter.pass_on found results)) [e]
      (Some (mkExn NameError 207)) (snd (Satorter.pass_on found results)).
Proof.
  intros Hseed Hiter. cbn [Satorter.seeds].
  assert (negb (Satorter.length self mod 2 =? 0) && negb (is_symmetrical word) = false)
    as ->.
  { destruct Hseed as [->| ->]; [done|]. apply andb_false_r. }
  rewrite Hiter. by destruct (Satorter.pass_on found results).
Qed.

Lemma generator_handler_raises_witness :
  ∃ self h,
    one_sided = (Ok self, Ok h)
    ∧ Satorter.generator h self false 0
      = Satorter.mkRun [] [mkExn AssertionError 148] (Some (mkExn NameError 207)) [].
Proof.
  eexists _, _. split; [vm_compute; reflexivity|].
  refine (generator_handler_raises _ _ (mkWord 0 (lit "ab")) [] [] []
            (mkExn AssertionError 148) 0 2 _ _).
  - left. reflexivity.
  - vm_compute. reflexivity.
Defined.

(** C3 on the five words of the classical square, [near_miss = 0]: the
    generator yields two grids, both full, and in neither does column 0
    read as row 0: the first has rows sator, opera, tenet, arepo, rotas and
    column 0 "sotar"; the second has rows rotas, arepo, tenet, opera, sator
    and column 0 "ratos". *)
Theorem classical_square_rows_are_not_columns :
  ∃ self g1 g2,
    fst (satorter_for classical_words 5 0) = Ok self
    ∧ Satorter.yielded
        (Satorter.generator (snd (satorter_for classical_words 5 0)) self false 0)
      = [g1; g2]
    ∧ mapM (fmap deaccented) (Sator.content g1)
      = Some [lit "sator"; lit "opera"; lit "tenet"; lit "arepo"; lit "rotas"]
    ∧ read_column g1 0 = Some (lit "sotar")
    ∧ mapM (fmap deaccented) (Sator.content g2)
      = Some [lit "rotas"; lit "arepo"; lit "tenet"; lit "opera"; lit "sator"]
    ∧ read_column g2 0 = Some (lit "ratos").
Proof.
  eexists _, _, _. split; [by vm_compute|]. split; [by vm_compute|].
  split_and!; by vm_compute.
Qed.

(** ** Further properties of the generator *)

(** X1. Every grid an exploration finds is passed on to the caller of the
    generator, whatever [self.results] holds: the grids found are new
    objects, and membership in the set is by identity. *)
Theorem results_filter_nothing (h : Heap) (self : Satorter.t) (word : Word)
    (pos : option nat) (sator : option Sator.t) (next_id : nat)
    (results : list Sator.t) :
  (∀ r, r ∈ results → Sator.id r < next_id) →
  Satorter.pass_on
    (fst (fst (Satorter.iter_sator_for_central h self word pos sator next_id))) results
  = (fst (fst (Satorter.iter_sator_for_central h self word pos sator next_id)),
     results
     ++ fst (fst (Satorter.iter_sator_for_central h self word pos sator next_id))).
Proof.
  intros Hold.
  assert (∃ n, next_id ≤ n ∧
            new_objects n
              (fst (fst (Satorter.iter_sator_for_central h self word pos sator next_id)))
              (snd (Satorter.iter_sator_for_central h self word pos sator next_id)))
    as (n & Hn & _ & Hin & Hnd).
  { unfold Satorter.iter_sator_for_central, Sator.__init__.
    destruct sator as [sator|].
    - exists next_id. split; [done|]. apply search_new_objects.
    - exists (S next_id). split; [lia|]. apply search_new_objects. }
  apply pass_on_all; [done|].
  intros r g Hr Hg. apply Hold in Hr. apply Hin in Hg. lia.
Qed.

Lemma results_filter_nothing_witness :
  Satorter.pass_on
    (fst (fst (Satorter.iter_sator_for_central (snd anna_saab) (fst anna_saab)
                 (mkWord 0 (lit "anna")) None None 5)))
    [{| Sator.id := 3; Sator.length := 4;
        Sator.content := [None; Some (mkWord 0 (lit "anna"));
                          Some (mkWord 0 (lit "anna")); None] |}]
  = (fst (fst (Satorter.iter_sator_for_central (snd anna_saab) (fst anna_saab)
                 (mkWord 0 (lit "anna")) None None 5)),
     [{| Sator.id := 3; Sator.length := 4;
         Sator.content := [None; Some (mkWord 0 (lit "anna"));
                           Some (mkWord 0 (lit "anna")); None] |}]
     ++ fst (fst (Satorter.iter_sator_for_central (snd anna_saab) (fst anna_saab)
                    (mkWord 0 (lit "anna")) None None 5))).
Proof.
  apply (results_filter_nothing (snd anna_saab) (fst anna_saab)).
  intros r Hr. apply list_elem_of_singleton in Hr. subst r. simpl. lia.
Defined.

(** X2. With [near_miss == 0] (or less) every grid the generator yields has
    [length] slots and a word in each of them. *)
Theorem generator_yields_full_grids (h : Heap) (self : Satorter.t)
    (sator_bound : bool) (next_id : nat) (g : Sator.t) :
  (Satorter.near_miss self ≤ 0)%Z →
  1 ≤ Satorter.length self →
  g ∈ Satorter.yielded (Satorter.generator h self sator_bound next_id) →
  List.length (Sator.content g) = Satorter.length self
  ∧ Forall (fun slot => slot ≠ None) (Sator.content g).
Proof.
  intros Hnear Hn. unfold Satorter.generator. revert g.
  apply seeds_yields. intros word n g.
  unfold Satorter.iter_sator_for_central, Sator.__init__.
  destruct (middle_pos_bounds self Hn) as [Hlo Hhi].
  intros Hg. apply search_yields_full in Hg as (_ & Hlen & Hfull); simpl in *;
    [|done|by rewrite length_replicate|lia|intros j Hj; lia].
  split; [done|]. apply Forall_lookup. intros j slot Hj ->.
  destruct (Hfull j) as [w Hw]; [|congruence].
  apply lookup_lt_Some in Hj. lia.
Qed.

Lemma generator_yields_full_grids_witness :
  List.length (Sator.content
                 {| Sator.id := 1; Sator.length := 2;
                    Sator.content := [Some (mkWord 1 (lit "ba")); Some (mkWord 0 (lit "ab"))] |})
  = 2
  ∧ Forall (fun slot => slot ≠ None)
      (Sator.content
         {| Sator.id := 1; Sator.length := 2;
            Sator.content := [Some (mkWord 1 (lit "ba")); Some (mkWord 0 (lit "ab"))] |}).
Proof.
  apply (generator_yields_full_grids
           (snd (WordsList.__init__ empty_heap [lit "ab"; lit "ba"] (Some 2)))
           {| Satorter.words :=
                fst (WordsList.__init__ empty_heap [lit "ab"; lit "ba"] (Some 2));
              Satorter.near_miss := 0; Satorter.length := 2; Satorter.results := [] |}
           false 0).
  - simpl. lia.
  - simpl. lia.
  - vm_compute. apply list_elem_of_here.
Defined.



(** * More of the module *)

(** ** [DictStorage] as a dict *)

Lemma DictStorage_get_set_eq (content : DictStorage.t) (k : str) (v : Word) :
  DictStorage.get (DictStorage.set content k v) k = Some v.
Proof.
  induction content as [|[k0 v0] rest IH]; simpl.
  - by rewrite bool_decide_eq_true_2.
  - case_bool_decide as Hk; simpl.
    + by rewrite bool_decide_eq_true_2.
    + by rewrite bool_decide_eq_false_2.
Qed.

Lemma DictStorage_get_set_ne (content : DictStorage.t) (k k' : str) (v : Word) :
  k ≠ k' → DictStorage.get (DictStorage.set content k v) k' = DictStorage.get content k'.
Proof.
  intros Hne. induction content as [|[k0 v0] rest IH]; simpl.
  - by rewrite bool_decide_eq_false_2.
  - case_bool_decide as Hk; simpl.
    + subst k0. by rewrite !bool_decide_eq_false_2.
    + case_bool_decide; [done|apply IH].
Qed.

Lemma DictStorage_set_keys_eq (content : DictStorage.t) (k : str) (v : Word) :
  map fst (DictStorage.set content k v)
  = if bool_decide (k ∈ map fst content) then map fst content
    else map fst content ++ [k].
Proof.
  induction content as [|[k0 v0] rest IH]; [done|].
  cbn [DictStorage.set map fst].
  destruct (decide (k0 = k)) as [->|Hk].
  - rewrite !bool_decide_eq_true_2; [done|apply list_elem_of_here|done].
  - rewrite (bool_decide_eq_false_2 (k0 = k)) by done. cbn [map fst]. rewrite IH.
    destruct (decide (k ∈ map fst rest)) as [Hin|Hin].
    + rewrite !bool_decide_eq_true_2; [done|by apply list_elem_of_further|done].
    + rewrite !bool_decide_eq_false_2; [done| |done].
      intros [?|?]%elem_of_cons; [by subst|done].
Qed.

Lemma DictStorage_get_None (content : DictStorage.t) (k : str) :
  DictStorage.get content k = None ↔ k ∉ map fst content.
Proof.
  induction content as [|[k0 v0] rest IH]; simpl.
  - split; [intros _; by intros ?%elem_of_nil|done].
  - case_bool_decide as Hk.
    + subst k0. split; [done|]. intros []. apply list_elem_of_here.
    + rewrite IH. split.
      * intros H [?|?]%elem_of_cons; [by subst|done].
      * intros H ?. apply H. by apply list_elem_of_further.
Qed.

Lemma DictStorage_set_NoDup (content : DictStorage.t) (k : str) (v : Word) :
  NoDup (map fst content) → NoDup (map fst (DictStorage.set content k v)).
Proof.
  intros Hnd. rewrite DictStorage_set_keys_eq. case_bool_decide as Hin; [done|].
  apply NoDup_app. split_and!; [done| |apply NoDup_singleton].
  intros x Hx ->%list_elem_of_singleton. done.
Qed.

Lemma DictStorage_get_NoDup (content : DictStorage.t) (k : str) (v : Word) :
  NoDup (map fst content) → (k, v) ∈ content → DictStorage.get content k = Some v.
Proof.
  induction content as [|[k0 v0] rest IH]; simpl.
  - by intros _ ?%elem_of_nil.
  - intros [Hk0 Hnd]%NoDup_cons [[= -> ->]|Hin]%elem_of_cons.
    + by rewrite bool_decide_eq_true_2.
    + case_bool_decide as Hk; [|by apply IH]. subst k0. destruct Hk0.
      apply list_elem_of_In, in_map_iff. exists (k, v). split; [done|].
      by apply list_elem_of_In.
Qed.

(** X4. [DictStorage] behaves as a dict that keeps insertion order:
    [get] after [set] of the same key returns the value set, [set] leaves
    every other key's value alone, [set] of a key already present keeps
    the keys and their order while a new key goes last, a missing key is
    exactly one [get] answers [None] for, and [item in storage] says
    whether [get] finds it. *)
Theorem DictStorage_set_then_get :
  (∀ content k v, DictStorage.get (DictStorage.set content k v) k = Some v)
  ∧ (∀ content k k' v, k ≠ k' →
       DictStorage.get (DictStorage.set content k v) k' = DictStorage.get content k')
  ∧ (∀ content k v,
       map fst (DictStorage.set content k v)
       = if bool_decide (k ∈ map fst content) then map fst content
         else map fst content ++ [k])
  ∧ (∀ content k, DictStorage.get content k = None ↔ k ∉ map fst content)
  ∧ (∀ content k, DictStorage.__contains__ content k = true
                  ↔ is_Some (DictStorage.get content k)).
Proof.
  split_and!.
  - apply DictStorage_get_set_eq.
  - apply DictStorage_get_set_ne.
  - apply DictStorage_set_keys_eq.
  - apply DictStorage_get_None.
  - intros content k. unfold DictStorage.__contains__.
    rewrite bool_decide_eq_true, <- not_eq_None_Some, DictStorage_get_None.
    split; [tauto|]. apply dec_stable.
Qed.

Lemma DictStorage_set_then_get_witness :
  DictStorage.get
    (DictStorage.set (DictStorage.set DictStorage.__init__ (lit "ab") (mkWord 0 (lit "ab")))
       (lit "ba") (mkWord 1 (lit "ba")))
    (lit "ab")
  = DictStorage.get (DictStorage.set DictStorage.__init__ (lit "ab") (mkWord 0 (lit "ab")))
      (lit "ab").
Proof.
  apply (proj1 (proj2 DictStorage_set_then_get)). vm_compute. discriminate.
Defined.

(** ** The descriptor and [Word.__init__] *)

Lemma heap_wf_fresh (h : Heap) (w : Word) :
  heap_wf h → List.length (allocated h) ≤ wid w → Inverted_get h w = None.
Proof.
  intros [_ Hinv] Hw. unfold Inverted_get.
  destruct (_inverted h !! wid w) as [p|] eqn:E; [|done].
  destruct (Hinv _ _ E) as (w0 & Hw0 & _). apply lookup_lt_Some in Hw0. lia.
Qed.

Lemma Inverted_set_obj (h : Heap) (obj v : Word) :
  Inverted_get (Inverted_set h obj (Some v)) obj = Some v.
Proof.
  rewrite Inverted_set_Some. cbv zeta.
  destruct (Inverted_get (store_inverted h obj (Some v)) v) eqn:E;
    unfold Inverted_get, store_inverted in *; simpl in *.
  - apply lookup_insert_eq.
  - rewrite lookup_insert_ne; [apply lookup_insert_eq|].
    intros Heq. rewrite Heq, lookup_insert_eq in E. done.
Qed.

Lemma Inverted_set_value (h : Heap) (obj v : Word) :
  wid v ≠ wid obj →
  Inverted_get (Inverted_set h obj (Some v)) v
  = match Inverted_get h v with Some q => Some q | None => Some obj end.
Proof.
  intros Hne. rewrite Inverted_set_Some. cbv zeta.
  unfold Inverted_get, store_inverted; simpl.
  rewrite lookup_insert_ne by done.
  destruct (_inverted h !! wid v) eqn:E; simpl.
  - by rewrite lookup_insert_ne.
  - apply lookup_insert_eq.
Qed.

Lemma Inverted_set_frame (h : Heap) (obj v w : Word) :
  wid w ≠ wid obj → wid w ≠ wid v →
  Inverted_get (Inverted_set h obj (Some v)) w = Inverted_get h w.
Proof.
  intros Hobj Hv. rewrite Inverted_set_Some. cbv zeta.
  destruct (Inverted_get (store_inverted h obj (Some v)) v);
    unfold Inverted_get, store_inverted; simpl;
    by rewrite ?lookup_insert_ne by done.
Qed.

Lemma Inverted_set_None (h : Heap) (obj w : Word) :
  Inverted_get (Inverted_set h obj None) w
  = if decide (wid w = wid obj) then None else Inverted_get h w.
Proof.
  unfold Inverted_set, Inverted_get. simpl.
  case_decide as Hw; [rewrite Hw; apply lookup_delete_eq|].
  by rewrite lookup_delete_ne.
Qed.

Lemma Inverted_set_mono (h : Heap) (obj v w : Word) :
  is_Some (Inverted_get h w) → is_Some (Inverted_get (Inverted_set h obj (Some v)) w).
Proof.
  intros Hw. destruct (decide (wid w = wid obj)) as [Ho|Ho].
  - unfold Inverted_get in *. rewrite Ho. fold (Inverted_get (Inverted_set h obj (Some v)) obj).
    rewrite Inverted_set_obj. eauto.
  - destruct (decide (wid w = wid v)) as [Hv|Hv].
    + unfold Inverted_get in *. rewrite Hv in *.
      fold (Inverted_get (Inverted_set h obj (Some v)) v). fold (Inverted_get h v) in Hw.
      rewrite Inverted_set_value by congruence. by destruct (Inverted_get h v).
    + by rewrite Inverted_set_frame.
Qed.

Lemma Word_init_frame (h : Heap) (o : str) :
  heap_wf h →
  wid (fst (Word_init h o)) = List.length (allocated h)
  ∧ original (fst (Word_init h o)) = o
  ∧ allocated (snd (Word_init h o)) = allocated h ++ [fst (Word_init h o)]
  ∧ Inverted_get (snd (Word_init h o)) (fst (Word_init h o))
    = (if bool_decide (deaccent o = invert (deaccent o))
       then Some (fst (Word_init h o)) else None)
  ∧ (∀ w, wid w ≠ List.length (allocated h) →
       Inverted_get (snd (Word_init h o)) w = Inverted_get h w).
Proof.
  intros Hwf. destruct (Word_init_spec h o Hwf) as (Hself & Halloc & _).
  set (self := mkWord (List.length (allocated h)) o) in *.
  unfold Word_init in *. fold self in Hself, Halloc |- *.
  change (is_symmetrical self)
    with (bool_decide (deaccent o = invert (deaccent o))) in *.
  assert (Inverted_get {| allocated := allocated h ++ [self]; _inverted := _inverted h |} self
          = None) as Hfresh.
  { apply (heap_wf_fresh h self Hwf). done. }
  destruct (bool_decide (deaccent o = invert (deaccent o))); simpl in *.
  - split_and!; try done.
    + apply Inverted_set_obj.
    + intros w Hw. by rewrite Inverted_set_frame.
  - split_and!; done.
Qed.

(** X5. [obj.inverted = value] with a [value] that is not [None] makes
    [value] the partner of [obj]; makes [obj] the partner of [value] when
    [value] had none and leaves [value]'s partner alone when it had one;
    changes the partner of no other object; and the setter's call of
    itself never goes deeper than one level.  With [None] it only clears
    the partner of [obj]. *)
Theorem Inverted_set_is_mutual :
  (∀ h obj v, Inverted_get (Inverted_set h obj (Some v)) obj = Some v)
  ∧ (∀ h obj v, wid v ≠ wid obj →
       Inverted_get (Inverted_set h obj (Some v)) v
       = match Inverted_get h v with Some q => Some q | None => Some obj end)
  ∧ (∀ h obj v w, wid w ≠ wid obj → wid w ≠ wid v →
       Inverted_get (Inverted_set h obj (Some v)) w = Inverted_get h w)
  ∧ (∀ fuel h obj value,
       Inverted_set_fuel (S fuel) h obj value = Inverted_set h obj value)
  ∧ (∀ h obj w,
       Inverted_get (Inverted_set h obj None) w
       = if decide (wid w = wid obj) then None else Inverted_get h w).
Proof.
  split_and!.
  - apply Inverted_set_obj.
  - apply Inverted_set_value.
  - apply Inverted_set_frame.
  - apply Inverted_set_fuel_stable.
  - apply Inverted_set_None.
Qed.

Lemma Inverted_set_is_mutual_witness :
  Inverted_get
    (Inverted_set {| allocated := [mkWord 0 (lit "ab"); mkWord 1 (lit "ba")];
                     _inverted := ∅ |}
       (mkWord 0 (lit "ab")) (Some (mkWord 1 (lit "ba"))))
    (mkWord 1 (lit "ba"))
  = match Inverted_get {| allocated := [mkWord 0 (lit "ab"); mkWord 1 (lit "ba")];
                          _inverted := ∅ |} (mkWord 1 (lit "ba")) with
    | Some q => Some q
    | None => Some (mkWord 0 (lit "ab"))
    end.
Proof.
  apply (proj1 (proj2 Inverted_set_is_mutual)). simpl. lia.
Defined.

(** X6. [Word(original)] on a well-formed heap is a new object, numbered
    after every object allocated before; it is its own partner when its
    deaccented form reads the same backwards, and has no partner
    otherwise; no other object's partner changes; and the heap stays
    well formed. *)
Theorem Word_init_partner (h : Heap) (o : str) :
  heap_wf h →
  wid (fst (Word_init h o)) = List.length (allocated h)
  ∧ original (fst (Word_init h o)) = o
  ∧ allocated (snd (Word_init h o)) = allocated h ++ [fst (Word_init h o)]
  ∧ Inverted_get (snd (Word_init h o)) (fst (Word_init h o))
    = (if bool_decide (deaccent o = invert (deaccent o))
       then Some (fst (Word_init h o)) else None)
  ∧ (∀ w, wid w ≠ List.length (allocated h) →
       Inverted_get (snd (Word_init h o)) w = Inverted_get h w)
  ∧ heap_wf (snd (Word_init h o)).
Proof.
  intros Hwf. destruct (Word_init_frame h o Hwf) as (H1 & H2 & H3 & H4 & H5).
  split_and!; try done. by apply Word_init_spec.
Qed.

Lemma Word_init_partner_witness :
  Inverted_get (snd (Word_init empty_heap (lit "tenet"))) (fst (Word_init empty_heap (lit "tenet")))
  = (if bool_decide (deaccent (lit "tenet") = invert (deaccent (lit "tenet")))
     then Some (fst (Word_init empty_heap (lit "tenet"))) else None).
Proof.
  apply (Word_init_partner empty_heap (lit "tenet") heap_wf_empty).
Defined.

(** ** More on [deaccent] *)

(** X7. The result of [deaccent] contains none of the nine accented
    letters; [deaccent] commutes with [invert]; and [deaccent] of a
    concatenation is the concatenation of the [deaccent]s. *)
Theorem deaccent_normal_form :
  (∀ s, Forall (fun c => ¬ accented c) (deaccent s))
  ∧ (∀ s, deaccent (invert s) = invert (deaccent s))
  ∧ (∀ s1 s2, deaccent (s1 ++ s2) = deaccent s1 ++ deaccent s2).
Proof.
  split_and!.
  - intros s. rewrite deaccent_map. apply Forall_forall. intros c Hc.
    apply list_elem_of_In, in_map_iff in Hc as (c0 & <- & _).
    destruct (deaccent_letter_cases c0) as [[_ H]|[H ->]]; done.
  - intros s. unfold invert. rewrite !deaccent_map. apply map_rev.
  - intros s1 s2. rewrite !deaccent_map. apply map_app.
Qed.

(** ** The positional index, exactly *)

Lemma set_add_elem_iff (x y : str) (s : list str) :
  y ∈ WordsList.set_add x s ↔ y = x ∨ y ∈ s.
Proof.
  unfold WordsList.set_add. case_bool_decide as Hx.
  - split; [by right|]. by intros [->|?].
  - rewrite elem_of_app, list_elem_of_singleton. tauto.
Qed.

Lemma set_add_NoDup (x : str) (s : list str) :
  NoDup s → NoDup (WordsList.set_add x s).
Proof.
  intros Hnd. unfold WordsList.set_add. case_bool_decide as Hx; [done|].
  apply NoDup_app. split_and!; [done| |apply NoDup_singleton].
  by intros y Hy ->%list_elem_of_singleton.
Qed.

Lemma register_letter_lookup (deacc : str) (lp : gmap (N * nat) (list str))
    (pl : nat * N) (key : N * nat) :
  default [] (WordsList.register_letter deacc lp pl !! key)
  = if decide ((pl.2, pl.1) = key)
    then WordsList.set_add deacc (default [] (lp !! key))
    else default [] (lp !! key).
Proof.
  unfold WordsList.register_letter. case_decide as Hkey.
  - subst key. rewrite lookup_insert_eq. simpl. f_equal.
    destruct (lp !! (pl.2, pl.1)) eqn:E; [by rewrite E|].
    by rewrite lookup_insert_eq.
  - rewrite lookup_insert_ne by done.
    destruct (lp !! (pl.2, pl.1)) eqn:E; [done|].
    by rewrite lookup_insert_ne.
Qed.

Lemma register_fold_elem (deacc : str) (pls : list (nat * N))
    (lp : gmap (N * nat) (list str)) (key : N * nat) (item : str) :
  item ∈ default [] (fold_left (WordsList.register_letter deacc) pls lp !! key)
  ↔ item ∈ default [] (lp !! key) ∨ (item = deacc ∧ (key.2, key.1) ∈ pls).
Proof.
  revert lp. induction pls as [|pl pls IH]; intros lp; simpl.
  - split; [by left|]. intros [?|[_ ?%elem_of_nil]]; done.
  - rewrite IH, register_letter_lookup. case_decide as Hkey.
    + rewrite set_add_elem_iff, elem_of_cons. subst key. simpl.
      destruct pl as [pos letter]. simpl. split.
      * intros [[->|?]|[-> ?]]; [right; split; [done|by left]|by left|].
        right. split; [done|by right].
      * intros [?|[-> [?|?]]]; [left; by right|left; by left|right; by split].
    + rewrite elem_of_cons. split.
      * intros [?|[-> ?]]; [by left|right; split; [done|by right]].
      * intros [?|[-> [Heq|?]]]; [by left| |by right].
        destruct Hkey. destruct key, pl. simpl in *. congruence.
Qed.

Lemma register_fold_NoDup (deacc : str) (pls : list (nat * N))
    (lp : gmap (N * nat) (list str)) :
  (∀ key, NoDup (default [] (lp !! key))) →
  ∀ key, NoDup (default [] (fold_left (WordsList.register_letter deacc) pls lp !! key)).
Proof.
  revert lp. induction pls as [|pl pls IH]; intros lp Hnd; simpl; [done|].
  apply IH. intros key. rewrite register_letter_lookup.
  case_decide; [by apply set_add_NoDup|done].
Qed.

Lemma register_elem_iff (self : WordsList.t) (word : Word) (c : N) (pos : nat)
    (item : str) :
  item ∈ default [] (WordsList.l_and_p
                       (WordsList.register_word_letter_and_position self word) !! (c, pos))
  ↔ item ∈ default [] (WordsList.l_and_p self !! (c, pos))
    ∨ (item = deaccented word ∧ deaccented word !! pos = Some c).
Proof.
  unfold WordsList.register_word_letter_and_position. cbn [WordsList.l_and_p].
  rewrite register_fold_elem. cbn [fst snd].
  assert ((pos, c) ∈ imap (λ (pos : nat) (letter : N), (pos, letter)) (deaccented word)
          ↔ deaccented word !! pos = Some c) as Himap.
  { rewrite list_elem_of_lookup. split.
    - intros [i Hi]. rewrite list_lookup_imap in Hi.
      apply fmap_Some in Hi as (y & Hy & [= -> ->]). done.
    - intros Hc. exists pos. rewrite list_lookup_imap. apply fmap_Some. by exists c. }
  by rewrite Himap.
Qed.

Lemma Word_init_original (h : Heap) (s : str) : original (fst (Word_init h s)) = s.
Proof. unfold Word_init. by destruct (is_symmetrical _). Qed.

Lemma setup_step_words (self : WordsList.t) (h : Heap) (s : str) :
  WordsList.words (fst (WordsList.setup_step (self, h) s))
  = DictStorage.set (WordsList.words self) (deaccent s) (fst (Word_init h s))
  ∧ WordsList.l_and_p (fst (WordsList.setup_step (self, h) s))
    = WordsList.l_and_p
        (WordsList.register_word_letter_and_position
           {| WordsList.length := WordsList.length self;
              WordsList._words := WordsList._words self;
              WordsList.words :=
                DictStorage.set (WordsList.words self) (deaccent s) (fst (Word_init h s));
              WordsList.l_and_p := WordsList.l_and_p self |}
           (fst (Word_init h s))).
Proof.
  unfold WordsList.setup_step.
  pose proof (Word_init_original h s) as Ho.
  destruct (Word_init h s) as [word h1]. simpl in Ho.
  unfold deaccented. rewrite Ho. by destruct (truth _).
Qed.

Lemma setup_step_exact (self : WordsList.t) (h : Heap) (processed : list str) (s : str) :
  index_exact self processed →
  index_exact (fst (WordsList.setup_step (self, h) s)) (processed ++ [s]).
Proof.
  intros (Hnd & Hkeys & Hentries & Hlp & Hsets).
  destruct (setup_step_words self h s) as [Hwords Hlp1].
  pose proof (Word_init_original h s) as Ho.
  set (word := fst (Word_init h s)) in *.
  assert (deaccented word = deaccent s) as Hword by (unfold deaccented; by rewrite Ho).
  assert (∀ k, k ∈ map fst (DictStorage.set (WordsList.words self) (deaccent s) word)
               ↔ k = deaccent s ∨ k ∈ map fst (WordsList.words self)) as Hkeys1.
  { intros k. rewrite DictStorage_set_keys_eq. case_bool_decide as Hin.
    - split; [by right|]. by intros [->|?].
    - rewrite elem_of_app, list_elem_of_singleton. tauto. }
  unfold index_exact. rewrite Hwords, Hlp1. split_and!.
  - by apply DictStorage_set_NoDup.
  - intros k. rewrite Hkeys1, Hkeys. split.
    + intros [->|(s' & Hs' & <-)].
      * exists s. split; [|done]. apply elem_of_app. right. apply list_elem_of_here.
      * exists s'. split; [|done]. apply elem_of_app. by left.
    + intros (s' & [Hs'|Hs']%elem_of_app & <-).
      * right. by exists s'.
      * apply list_elem_of_singleton in Hs'. subst s'. by left.
  - intros k v Hin. rewrite filter_app.
    rewrite (filter_cons _ s), filter_nil.
    destruct (decide (deaccent s = k)) as [<-|Hne].
    + assert (v = word) as ->.
      { apply (DictStorage_get_NoDup _ _ _ (DictStorage_set_NoDup _ (deaccent s) word Hnd))
          in Hin.
        rewrite DictStorage_get_set_eq in Hin. congruence. }
      split; [done|]. by rewrite last_snoc, Ho.
    + apply DictStorage_set_elem in Hin as [[= -> ->]|Hin]; [done|].
      rewrite app_nil_r. by apply Hentries.
  - intros c pos item. rewrite register_elem_iff. cbn [WordsList.l_and_p].
    rewrite Hlp, Hkeys1, Hword. split.
    + intros [[? ?]|[-> ?]]; [split; [by right|done]|split; [by left|done]].
    + intros [[->|?] ?]; [right; by split|left; by split].
  - apply register_fold_NoDup. exact Hsets.
Qed.

Lemma setup_fold_exact (todo : list str) (self : WordsList.t) (h : Heap)
    (processed : list str) :
  index_exact self processed →
  index_exact (fst (fold_left WordsList.setup_step todo (self, h))) (processed ++ todo).
Proof.
  revert self h processed.
  induction todo as [|s todo IH]; intros self h processed Hex; cbn [fold_left].
  - by rewrite app_nil_r.
  - pose proof (setup_step_exact self h processed s Hex) as Hex1.
    destruct (WordsList.setup_step (self, h) s) as [self1 h1].
    replace (processed ++ s :: todo) with ((processed ++ [s]) ++ todo)
      by (by rewrite <- app_assoc).
    by apply IH.
Qed.

Lemma WordsList_init_exact (h : Heap) (words : list str) (length : option nat) :
  index_exact (fst (WordsList.__init__ h words length))
    (WordsList._words (fst (WordsList.__init__ h words length))).
Proof.
  destruct (WordsList_init_wf h words length) as (_ & -> & _).
  unfold WordsList.__init__, WordsList.setup. cbn [WordsList._words].
  match goal with
  | |- context [fold_left _ ?todo (?self, _)] =>
      apply (setup_fold_exact todo self h [])
  end.
  unfold index_exact. simpl. split_and!.
  - constructor.
  - intros k. split; [by intros ?%elem_of_nil|]. by intros (s & ?%elem_of_nil & _).
  - by intros k v ?%elem_of_nil.
  - intros c pos item. rewrite lookup_empty. simpl.
    split; [by intros ?%elem_of_nil|]. by intros [?%elem_of_nil _].
  - intros key. rewrite lookup_empty. constructor.
Qed.

(** ** Who has a partner *)

Lemma elem_key (content : DictStorage.t) (k : str) (v : Word) :
  (k, v) ∈ content → k ∈ map fst content.
Proof.
  intros Hin. apply list_elem_of_In, in_map_iff. exists (k, v).
  split; [done|]. by apply list_elem_of_In.
Qed.

Lemma entries_agree (content : DictStorage.t) (k : str) (v1 v2 : Word) :
  NoDup (map fst content) → (k, v1) ∈ content → (k, v2) ∈ content → v1 = v2.
Proof.
  intros Hnd H1 H2.
  apply (DictStorage_get_NoDup _ _ _ Hnd) in H1.
  apply (DictStorage_get_NoDup _ _ _ Hnd) in H2. congruence.
Qed.

Lemma setup_step_partners (self : WordsList.t) (h : Heap) (s : str) :
  heap_wf h → index_wf self → index_allocated self h →
  NoDup (map fst (WordsList.words self)) →
  partners_exact self h →
  partners_exact (fst (WordsList.setup_step (self, h) s))
    (snd (WordsList.setup_step (self, h) s)).
Proof.
  intros Hwf [Hkey _] Halloc Hnd (P1 & P2 & P3).
  destruct (Word_init_frame h s Hwf) as (Hwid & Ho & Hallocated & Hself & Hframe).
  unfold WordsList.setup_step.
  destruct (Word_init h s) as [word h1]. simpl in Hwid, Ho, Hallocated, Hself, Hframe.
  set (k0 := deaccented word).
  assert (k0 = deaccent s) as Hk0 by (unfold k0, deaccented; by rewrite Ho).
  set (words1 := DictStorage.set (WordsList.words self) k0 word).
  cbn [WordsList.words WordsList.register_word_letter_and_position].
  fold words1.
  assert (NoDup (map fst words1)) as Hnd1 by by apply DictStorage_set_NoDup.
  assert ((k0, word) ∈ words1) as Hword1.
  { apply DictStorage_get_elem, DictStorage_get_set_eq. }
  assert (∀ k v, (k, v) ∈ words1 → deaccented v = k) as Hkey1.
  { by intros k v [[= -> ->]|Hin]%DictStorage_set_elem; [|apply Hkey]. }
  assert (∀ k v, (k, v) ∈ words1 → v = word ∧ k = k0 ∨ (k, v) ∈ WordsList.words self ∧ k ≠ k0)
    as Hsplit.
  { intros k v Hin. destruct (decide (k = k0)) as [->|Hne].
    - left. split; [|done]. by apply (entries_agree words1 k0).
    - right. split; [|done]. by apply DictStorage_set_elem in Hin as [[= -> ->]|Hin]. }
  assert (∀ k v, (k, v) ∈ WordsList.words self → k ≠ k0 → (k, v) ∈ words1) as Hkeep.
  { intros k v Hin Hne. apply DictStorage_get_elem. unfold words1.
    rewrite DictStorage_get_set_ne by done. by apply DictStorage_get_NoDup. }
  assert (∀ k, k ∈ map fst words1 ↔ k = k0 ∨ k ∈ map fst (WordsList.words self)) as Hkeys1.
  { intros k. unfold words1. rewrite DictStorage_set_keys_eq.
    destruct (decide (k0 ∈ map fst (WordsList.words self))) as [Hin|Hin].
    - rewrite bool_decide_eq_true_2 by done.
      split; [intros ?; by right|]. by intros [->|?].
    - rewrite bool_decide_eq_false_2 by done.
      rewrite elem_of_app, list_elem_of_singleton. tauto. }
  assert (∀ k v, (k, v) ∈ WordsList.words self →
            wid v ≠ wid word ∧ Inverted_get h1 v = Inverted_get h v) as Hold.
  { intros k v Hin. apply Halloc in Hin. apply lookup_lt_Some in Hin.
    assert (wid v ≠ List.length (allocated h)) by lia.
    split; [congruence|]. by apply Hframe. }
  assert (is_symmetrical word = bool_decide (deaccent s = invert (deaccent s))) as Hsym.
  { unfold is_symmetrical, inverted_deaccented. fold k0. by rewrite Hk0. }
  rewrite <- Hsym in Hself.
  destruct (DictStorage.get words1 (invert k0)) as [p|] eqn:Hget.
  2:{ (* the reverse of the new key is no key *)
    simpl. apply DictStorage_get_None in Hget. split_and!.
    - intros k w Hin Hk Hrev. apply Hsplit in Hin as [[-> ->]|[Hin Hne]]; [done|].
      apply Hkeys1 in Hrev as [Hrev|Hrev].
      + destruct Hget. rewrite <- Hrev. unfold invert. rewrite rev_involutive.
        apply Hkeys1. right. by apply (elem_key _ _ w).
      + destruct (Hold k w Hin) as [_ ->]. by apply (P1 k).
    - intros k w Hin Hsome. apply Hsplit in Hin as [[-> ->]|[Hin Hne]].
      + rewrite Hself in Hsome. destruct (is_symmetrical word) eqn:E; [|by destruct Hsome].
        apply bool_decide_eq_true in E. unfold inverted_deaccented in E. fold k0 in E.
        rewrite <- E. by apply (elem_key _ _ word).
      + destruct (Hold k w Hin) as [_ Heq]. rewrite Heq in Hsome.
        apply Hkeys1. right. by apply (P2 k w).
    - intros k w Hin Hs. apply Hsplit in Hin as [[-> ->]|[Hin Hne]].
      + by rewrite Hself, Hs.
      + destruct (Hold k w Hin) as [_ ->]. by apply (P3 k). }
  assert (deaccented p = invert k0) as Hp by (by apply Hkey1, DictStorage_get_elem).
  assert ((invert k0, p) ∈ words1) as Hp1 by (by apply DictStorage_get_elem).
  assert (wid p = wid word → p = word) as Hsame.
  { intros Hw. apply Hsplit in Hp1 as [[-> _]|[Hin _]]; [done|].
    by destruct (Hold _ _ Hin). }
  destruct (truth (Some p)) eqn:Htruth; simpl.
  2:{ (* the reverse of the new key is the empty key *)
    assert (invert k0 = []) as Hnil.
    { rewrite <- Hp. apply length_zero_iff_nil.
      destruct (Nat.eqb_spec (Word_len p) 0) as [E|E]; [exact E|].
      apply truth_Some in E. congruence. }
    assert (k0 = []) as Hk0nil.
    { apply (f_equal invert) in Hnil. by rewrite invert_involutive in Hnil. }
    split_and!.
    - intros k w Hin Hk Hrev. apply Hsplit in Hin as [[-> ->]|[Hin Hne]]; [done|].
      apply Hkeys1 in Hrev as [Hrev|Hrev].
      + destruct Hk. apply (f_equal invert) in Hrev.
        rewrite invert_involutive in Hrev. by rewrite Hrev, Hnil.
      + destruct (Hold k w Hin) as [_ ->]. by apply (P1 k).
    - intros k w Hin Hsome. apply Hsplit in Hin as [[-> ->]|[Hin Hne]].
      + rewrite Hnil, <- Hk0nil. by apply (elem_key _ _ word).
      + destruct (Hold k w Hin) as [_ Heq]. rewrite Heq in Hsome.
        apply Hkeys1. right. by apply (P2 k w).
    - intros k w Hin Hs. apply Hsplit in Hin as [[-> ->]|[Hin Hne]].
      + by rewrite Hself, Hs.
      + destruct (Hold k w Hin) as [_ ->]. by apply (P3 k). }
  split_and!.
  - intros k w Hin Hk Hrev. apply Hsplit in Hin as [[-> ->]|[Hin Hne]].
    { rewrite Inverted_set_obj. eauto. }
    apply Hkeys1 in Hrev as [Hrev|Hrev].
    + assert (w = p) as ->.
      { apply (entries_agree words1 k); [done| |].
        - by apply Hkeep.
        - rewrite <- Hrev in Hp1. by rewrite invert_involutive in Hp1. }
      destruct (Hold k p Hin) as [Hne' _].
      rewrite Inverted_set_value by done. destruct (Inverted_get h1 p); eauto.
    + apply Inverted_set_mono. destruct (Hold k w Hin) as [_ ->]. by apply (P1 k).
  - intros k w Hin Hsome. apply Hsplit in Hin as [[-> ->]|[Hin Hne]].
    { by apply (elem_key _ _ p). }
    destruct (Hold k w Hin) as [Hne' Heq].
    destruct (decide (wid w = wid p)) as [Hwp|Hwp].
    + assert (w = p) as ->.
      { destruct (Hsplit _ _ Hp1) as [[-> _]|[Hin' _]]; [by symmetry in Hwp|].
        apply Halloc in Hin, Hin'. rewrite Hwp in Hin. congruence. }
      apply Hkey in Hin. rewrite <- Hin, Hp, invert_involutive.
      by apply (elem_key _ _ word).
    + rewrite Inverted_set_frame in Hsome by done. rewrite Heq in Hsome.
      apply Hkeys1. right. by apply (P2 k w).
  - intros k w Hin Hs. apply Hsplit in Hin as [[-> ->]|[Hin Hne]].
    { rewrite Inverted_set_obj. f_equal.
      apply (entries_agree words1 k0); [done| |done].
      apply bool_decide_eq_true in Hs. unfold inverted_deaccented in Hs. fold k0 in Hs.
      by rewrite Hs. }
    destruct (Hold k w Hin) as [Hne' Heq].
    destruct (decide (wid w = wid p)) as [Hwp|Hwp].
    + assert (w = p) as ->.
      { destruct (Hsplit _ _ Hp1) as [[-> _]|[Hin' _]]; [by symmetry in Hwp|].
        apply Halloc in Hin, Hin'. rewrite Hwp in Hin. congruence. }
      rewrite Inverted_set_value by done. rewrite Heq, (P3 k p Hin Hs). done.
    + rewrite Inverted_set_frame by done. rewrite Heq. by apply (P3 k).
Qed.

Lemma setup_step_keys_NoDup (self : WordsList.t) (h : Heap) (s : str) :
  NoDup (map fst (WordsList.words self)) →
  NoDup (map fst (WordsList.words (fst (WordsList.setup_step (self, h) s)))).
Proof.
  intros Hnd. destruct (setup_step_words self h s) as [-> _].
  by apply DictStorage_set_NoDup.
Qed.

Lemma setup_fold_partners (todo : list str) (self : WordsList.t) (h : Heap) :
  heap_wf h → index_wf self → index_allocated self h →
  NoDup (map fst (WordsList.words self)) →
  partners_exact self h →
  partners_exact (fst (fold_left WordsList.setup_step todo (self, h)))
    (snd (fold_left WordsList.setup_step todo (self, h))).
Proof.
  revert self h.
  induction todo as [|s todo IH]; intros self h Hwf Hidx Halloc Hnd Hp;
    cbn [fold_left]; [done|].
  pose proof (setup_step_index_wf self h s Hidx) as Hidx1.
  destruct (setup_step_heap_wf self h s Hwf Hidx Halloc) as [Hwf1 Halloc1].
  pose proof (setup_step_keys_NoDup self h s Hnd) as Hnd1.
  pose proof (setup_step_partners self h s Hwf Hidx Halloc Hnd Hp) as Hp1.
  destruct (WordsList.setup_step (self, h) s) as [self1 h1].
  by apply IH.
Qed.

Lemma WordsList_init_partners (h : Heap) (words : list str) (length : option nat) :
  heap_wf h →
  partners_exact (fst (WordsList.__init__ h words length))
    (snd (WordsList.__init__ h words length)).
Proof.
  intros Hwf. unfold WordsList.__init__, WordsList.setup. cbn [WordsList._words].
  apply setup_fold_partners; try done.
  - split; simpl.
    + by intros k v ?%elem_of_nil.
    + intros key item. rewrite lookup_empty. by intros ?%elem_of_nil.
  - by intros k v ?%elem_of_nil.
  - constructor.
  - split_and!; by intros k w ?%elem_of_nil.
Qed.

Lemma init_partner_iff (h : Heap) (words : list str) (length : option nat)
    (k : str) (w : Word) :
  heap_wf h →
  (k, w) ∈ WordsList.words (fst (WordsList.__init__ h words length)) →
  (is_Some (Inverted_get (snd (WordsList.__init__ h words length)) w)
   ↔ is_Some (DictStorage.get (WordsList.words (fst (WordsList.__init__ h words length)))
                (invert k)))
  ∧ (k = invert k → Inverted_get (snd (WordsList.__init__ h words length)) w = Some w).
Proof.
  intros Hwf Hin.
  destruct (WordsList_init_partners h words length Hwf) as (P1 & P2 & P3).
  destruct (WordsList_init_wf h words length) as ([Hkey _] & _).
  assert (k = invert k →
          Inverted_get (snd (WordsList.__init__ h words length)) w = Some w) as Hsym.
  { intros Hk. apply (P3 k); [done|]. apply bool_decide_eq_true.
    unfold inverted_deaccented. by rewrite (Hkey k w Hin). }
  split; [|done]. split.
  - intros Hsome. by apply DictStorage_get_key, (P2 k w).
  - intros [p Hp]. destruct (decide (k = [])) as [->|Hne].
    + rewrite Hsym; [eauto|done].
    + apply (P1 k); [done..|]. by apply (elem_key _ _ p), DictStorage_get_elem.
Qed.

(** ** The lookup by letters, exactly *)

Lemma matching_from (self : WordsList.t) (letters : str) (position : nat)
    (length : option nat) (items : list str) (w : Word) :
  w ∈ fst (WordsList.matching self letters position length items) →
  ∃ item, item ∈ items
          ∧ DictStorage.get (WordsList.words self) item = Some w
          ∧ (int_truth length && negb (int_eq (List.length item) length) = false).
Proof.
  induction items as [|item items IH]; simpl.
  - by intros ?%elem_of_nil.
  - destruct (int_truth length && negb (int_eq (List.length item) length)) eqn:Hlen.
    { intros (i & Hi & Hg)%IH. exists i. split; [by apply list_elem_of_further|done]. }
    destruct (DictStorage.get (WordsList.words self) item) as [candidate|] eqn:Hget;
      [|by intros ?%elem_of_nil].
    case_bool_decide.
    2:{ intros (i & Hi & Hg)%IH. exists i. split; [by apply list_elem_of_further|done]. }
    destruct (WordsList.matching self letters position length items) as [ys e].
    simpl in *. intros [->|Hin]%elem_of_cons.
    + exists item. split; [apply list_elem_of_here|done].
    + destruct (IH Hin) as (i & Hi & Hg). exists i.
      split; [by apply list_elem_of_further|done].
Qed.

Lemma matching_complete (self : WordsList.t) (letters : str) (position : nat)
    (length : option nat) (items : list str) (item : str) (w : Word) :
  (∀ i, i ∈ items → i ∈ map fst (WordsList.words self)) →
  item ∈ items →
  DictStorage.get (WordsList.words self) item = Some w →
  py_slice (deaccented w) (Z.of_nat position)
    (Z.of_nat position + Z.of_nat (List.length letters)) = letters →
  int_truth length && negb (int_eq (List.length item) length) = false →
  w ∈ fst (WordsList.matching self letters position length items).
Proof.
  intros Hkeys Hin Hget Hslice Hlen.
  induction items as [|i items IH]; simpl; [by apply elem_of_nil in Hin|].
  assert (∀ i, i ∈ items → i ∈ map fst (WordsList.words self)) as Hkeys'.
  { intros ??. apply Hkeys. by apply list_elem_of_further. }
  destruct (decide (i = item)) as [->|Hne].
  - rewrite Hlen, Hget, bool_decide_eq_true_2 by done.
    destruct (WordsList.matching self letters position length items). simpl.
    apply list_elem_of_here.
  - apply elem_of_cons in Hin as [Hin|Hin]; [done|]. specialize (IH Hkeys' Hin).
    destruct (int_truth length && negb (int_eq (List.length i) length)); [done|].
    destruct (DictStorage_get_key (WordsList.words self) i) as [candidate ->].
    { apply Hkeys, list_elem_of_here. }
    case_bool_decide; [|done].
    destruct (WordsList.matching self letters position length items). simpl in *.
    by apply list_elem_of_further.
Qed.

Lemma matching_NoDup (self : WordsList.t) (letters : str) (position : nat)
    (length : option nat) (items : list str) :
  index_wf self → NoDup items →
  NoDup (fst (WordsList.matching self letters position length items)).
Proof.
  intros [Hkey _]. induction 1 as [|item items Hnot Hnd IH]; simpl; [constructor|].
  destruct (int_truth length && negb (int_eq (List.length item) length)); [done|].
  destruct (DictStorage.get (WordsList.words self) item) as [candidate|] eqn:Hget;
    [|constructor].
  case_bool_decide; [|done].
  pose proof (matching_from self letters position length items candidate) as Hfrom.
  destruct (WordsList.matching self letters position length items) as [ys e].
  simpl in *. constructor; [|done].
  intros (i & Hi & Hg & _)%Hfrom.
  apply DictStorage_get_elem, Hkey in Hget, Hg. congruence.
Qed.

Lemma py_slice_head (k letters : str) (position : nat) (c : N) (rest : str) :
  letters = c :: rest →
  py_slice k (Z.of_nat position) (Z.of_nat position + Z.of_nat (List.length letters))
  = letters →
  k !! position = Some c.
Proof.
  intros ->. rewrite <- Nat2Z.inj_add, py_slice_nat.
  destruct (decide (position < List.length k)) as [Hlt|Hge].
  - rewrite (Nat.min_l position) by lia. intros Heq.
    apply (f_equal (fun l => l !! 0)) in Heq. simpl in Heq.
    rewrite lookup_take_lt in Heq by (simpl; lia).
    rewrite lookup_drop in Heq. by rewrite Nat.add_0_r in Heq.
  - rewrite (Nat.min_r position) by lia. rewrite drop_all, take_nil. done.
Qed.

(** X8. What [WordsList(words, length)] files under which key: a string is
    a key exactly when it is the deaccented form of one of the words
    kept in [_words]; the word filed under a key has that deaccented form
    and was made from the last of the kept words with that form, in
    sorted order; and iterating over the index never gives two words of
    one deaccented form. *)
Theorem index_holds_last_of_each_form (h : Heap) (words : list str)
    (length : option nat) :
  let self := fst (WordsList.__init__ h words length) in
  (∀ k, is_Some (DictStorage.get (WordsList.words self) k)
        ↔ ∃ s, s ∈ WordsList._words self ∧ deaccent s = k)
  ∧ (∀ k v, DictStorage.get (WordsList.words self) k = Some v →
       deaccented v = k
       ∧ last (filter (fun s => deaccent s = k) (WordsList._words self))
         = Some (original v))
  ∧ NoDup (map deaccented (DictStorage.__iter__ (WordsList.words self))).
Proof.
  intros self.
  destruct (WordsList_init_exact h words length) as (Hnd & Hkeys & Hentries & _).
  fold self in Hnd, Hkeys, Hentries. split_and!.
  - intros k. rewrite <- Hkeys. split.
    + intros [v Hv]. by apply (elem_key _ _ v), DictStorage_get_elem.
    + apply DictStorage_get_key.
  - intros k v Hget. by apply Hentries, DictStorage_get_elem.
  - replace (map deaccented (DictStorage.__iter__ (WordsList.words self)))
      with (map fst (WordsList.words self)); [done|].
    unfold DictStorage.__iter__. rewrite map_map. apply map_ext_in.
    intros [k v] Hin. simpl. symmetry. by apply Hentries, list_elem_of_In.
Qed.

(** X9. After [WordsList(words, length)] the set [l_and_p[(c, pos)]] holds
    exactly the keys of the index that have the letter [c] at position
    [pos], each of them once. *)
Theorem l_and_p_holds_keys_by_letter (h : Heap) (words : list str)
    (length : option nat) (c : N) (pos : nat) :
  let self := fst (WordsList.__init__ h words length) in
  (∀ item, item ∈ default [] (WordsList.l_and_p self !! (c, pos))
           ↔ is_Some (DictStorage.get (WordsList.words self) item)
             ∧ item !! pos = Some c)
  ∧ NoDup (default [] (WordsList.l_and_p self !! (c, pos))).
Proof.
  intros self.
  destruct (WordsList_init_exact h words length) as (_ & _ & _ & Hlp & Hsets).
  fold self in Hlp, Hsets. split; [|apply Hsets].
  intros item. rewrite Hlp. split.
  - intros [Hk ?]. split; [by apply DictStorage_get_key|done].
  - intros [[v Hv] ?]. split; [|done]. by apply (elem_key _ _ v), DictStorage_get_elem.
Qed.

(** X10. Over an index built by [WordsList(...)], a lookup with a pattern
    of at least one letter yields exactly the indexed words whose
    deaccented form has [letters] at [position] and, when [length] is
    given and not zero, has that length; it yields each of them once. *)
Theorem word_for_letters_in_position_yields_all (h : Heap) (words : list str)
    (fixed : option nat) (letters : str) (position : nat) (length : option nat) :
  letters ≠ [] →
  let self := fst (WordsList.__init__ h words fixed) in
  let yields := fst (WordsList.word_for_letters_in_position self letters position length) in
  (∀ w, w ∈ yields
        ↔ w ∈ DictStorage.__iter__ (WordsList.words self)
          ∧ py_slice (deaccented w) (Z.of_nat position)
              (Z.of_nat position + Z.of_nat (List.length letters)) = letters
          ∧ (∀ n, length = Some n → n ≠ 0 → Word_len w = n))
  ∧ NoDup yields.
Proof.
  intros Hne self yields.
  destruct (WordsList_init_wf h words fixed) as (Hidx & _).
  destruct (WordsList_init_exact h words fixed) as (Hnd & _ & _ & Hlp & Hsets).
  fold self in Hidx, Hnd, Hlp, Hsets.
  unfold yields, WordsList.word_for_letters_in_position.
  destruct letters as [|c rest] eqn:Hletters; [done|].
  change (py_getitem (c :: rest) 0) with (Some c). cbv iota beta.
  rewrite <- Hletters. split; [|by apply matching_NoDup].
  intros w. split.
  - intros Hw. pose proof (matching_indexed _ _ _ _ _ _ Hw) as [item Hitem].
    apply (matching_sound _ _ _ _ _ _ Hidx) in Hw as [Hslice Hlen].
    split_and!; [|done|].
    + unfold DictStorage.__iter__. apply list_elem_of_In, in_map_iff.
      exists (item, w). split; [done|]. by apply list_elem_of_In.
    + intros n -> Hn. destruct n as [|n]; [done|]. specialize (Hlen eq_refl).
      simpl in Hlen. by apply Nat.eqb_eq in Hlen.
  - intros (Hin & Hslice & Hlen).
    unfold DictStorage.__iter__ in Hin. apply list_elem_of_In, in_map_iff in Hin.
    destruct Hin as ([k w'] & Heq & Hin). simpl in Heq. subst w'.
    apply list_elem_of_In in Hin.
    assert (deaccented w = k) as Hk by (by apply (proj1 Hidx)).
    apply (matching_complete _ _ _ _ _ k).
    + intros i. apply (proj2 Hidx).
    + apply Hlp. split; [by apply (elem_key _ _ w)|].
      rewrite <- Hk. by apply (py_slice_head _ letters _ _ rest).
    + by apply DictStorage_get_NoDup.
    + done.
    + destruct length as [[|n]|]; simpl; try done.
      rewrite <- Hk. fold (Word_len w). rewrite (Hlen (S n)) by done.
      by rewrite Nat.eqb_refl.
Qed.

Lemma word_for_letters_in_position_yields_all_witness :
  NoDup (fst (WordsList.word_for_letters_in_position
                (fst (WordsList.__init__ empty_heap [lit "ab"; lit "ba"] (Some 2)))
                (lit "a") 1 None)).
Proof.
  apply (word_for_letters_in_position_yields_all empty_heap [lit "ab"; lit "ba"]
           (Some 2) (lit "a") 1 None).
  vm_compute. discriminate.
Defined.

(** X11. After [WordsList(words, length)] on a well-formed heap, an indexed
    word has a partner exactly when the reverse of its deaccented form is
    a key of the index, and an indexed word whose deaccented form reads
    the same backwards is its own partner. *)
Theorem setup_partner_iff_reverse_indexed (h : Heap) (words : list str)
    (length : option nat) (k : str) (w : Word) :
  heap_wf h →
  DictStorage.get (WordsList.words (fst (WordsList.__init__ h words length))) k = Some w →
  (is_Some (Inverted_get (snd (WordsList.__init__ h words length)) w)
   ↔ is_Some (DictStorage.get (WordsList.words (fst (WordsList.__init__ h words length)))
                (invert k)))
  ∧ (k = invert k → Inverted_get (snd (WordsList.__init__ h words length)) w = Some w).
Proof.
  intros Hwf Hget. apply init_partner_iff; [done|]. by apply DictStorage_get_elem.
Qed.

Lemma setup_partner_iff_reverse_indexed_witness :
  (is_Some (Inverted_get (snd (WordsList.__init__ empty_heap [lit "ab"; lit "ba"] (Some 2)))
              (mkWord 0 (lit "ab")))
   ↔ is_Some (DictStorage.get
                (WordsList.words
                   (fst (WordsList.__init__ empty_heap [lit "ab"; lit "ba"] (Some 2))))
                (invert (lit "ab"))))
  ∧ (lit "ab" = invert (lit "ab") →
     Inverted_get (snd (WordsList.__init__ empty_heap [lit "ab"; lit "ba"] (Some 2)))
       (mkWord 0 (lit "ab"))
     = Some (mkWord 0 (lit "ab"))).
Proof.
  apply (setup_partner_iff_reverse_indexed empty_heap [lit "ab"; lit "ba"] (Some 2)
           (lit "ab") (mkWord 0 (lit "ab")) heap_wf_empty).
  vm_compute. reflexivity.
Defined.

(** ** The shape of the grids the search yields *)

Lemma candidates_yields_from (h : Heap) (rec : Word → nat → Trace Sator.t * nat)
    (P : Sator.t → Prop) (cands : list Word) (no_words : bool) (next_id : nat) :
  (∀ c n g, c ∈ cands → truth (Inverted_get h c) = true →
     g ∈ fst (fst (rec c n)) → P g) →
  ∀ g, g ∈ fst (fst (fst (Satorter.candidates h rec cands no_words next_id))) → P g.
Proof.
  revert no_words next_id.
  induction cands as [|c cands IH]; intros no_words next_id Hrec g; simpl.
  - by intros ?%elem_of_nil.
  - assert (∀ c' n g, c' ∈ cands → truth (Inverted_get h c') = true →
              g ∈ fst (fst (rec c' n)) → P g) as Hrec'.
    { intros c' n g' Hc'. apply Hrec. by apply list_elem_of_further. }
    destruct (truth (Inverted_get h c)) eqn:Ht; simpl; [|by apply IH].
    specialize (Hrec c next_id).
    destruct (rec c next_id) as [[inner [e|]] n1]; simpl in *.
    { intros Hg. apply (Hrec g); [apply list_elem_of_here|done..]. }
    specialize (IH false n1 Hrec').
    destruct (Satorter.candidates h rec cands false n1) as [[[ys e'] nw] n2].
    simpl in *. intros [Hg|Hg]%elem_of_app; [|by apply IH].
    apply (Hrec g); [apply list_elem_of_here|done..].
Qed.

Lemma search_reaches (h : Heap) (self : Satorter.t) (pos : nat) :
  ∀ (running_word : Word) (sator : Sator.t) (next_id : nat) (g : Sator.t),
    g ∈ fst (fst (Satorter.iter_sator_for_central_at h self running_word pos sator next_id)) →
    reaches h self running_word pos sator g.
Proof.
  induction pos as [|pos' IH]; intros running_word sator next_id g;
    rewrite iter_sator_for_central_at_eq;
    (destruct (Sator.copy_with_word_in_pos _ _ _ _ _) as [new_sator|e] eqn:Hcopy;
       [|by intros ?%elem_of_nil]).
  - cbn [fst]. intros ->%list_elem_of_singleton.
    apply (reaches_here _ _ _ _ _ next_id); [done|by left].
  - destruct (Satorter.required self new_sator (S pos')) as [letters|e] eqn:Hreq;
      [|by intros ?%elem_of_nil].
    destruct (WordsList.word_for_letters_in_position _ _ _ _) as [running_words stopped]
      eqn:Hwords.
    pose proof (candidates_yields_from h
      (fun running_word => Satorter.iter_sator_for_central_at h self running_word pos' new_sator)
      (fun g => reaches h self running_word (S pos') sator g)
      running_words true (S next_id)) as Hc.
    destruct (Satorter.candidates _ _ _ _ _) as [[[ys e] no_words] n1].
    simpl in Hc.
    assert (∀ g, g ∈ ys → reaches h self running_word (S pos') sator g) as Hys.
    { apply Hc. intros c n g' Hc' Ht Hg'.
      apply (reaches_deeper _ _ _ _ _ next_id new_sator letters c); try done.
      - by rewrite Hwords.
      - by apply (IH c new_sator n). }
    destruct e as [e|]; [apply Hys|]. destruct stopped as [e|]; [apply Hys|].
    destruct (no_words && (Z.of_nat (S pos') <=? Satorter.near_miss self)%Z) eqn:Hmiss;
      [|apply Hys].
    cbn [fst]. intros [Hg| ->%list_elem_of_singleton]%elem_of_app; [by apply Hys|].
    apply (reaches_here _ _ _ _ _ next_id); [done|right].
    apply andb_true_iff in Hmiss as [_ Hmiss]. by apply Z.leb_le in Hmiss.
Qed.

Lemma placed_ring (h : Heap) (new_id : nat) (sator g : Sator.t) (word : option Word)
    (pos n : nat) :
  ring_open n pos sator → 2 * pos + 1 ≤ n →
  Sator.copy_with_word_in_pos h new_id sator word pos = Ok g →
  ring_closed n pos g
  ∧ (∀ j, j ≠ pos → j ≠ n - 1 - pos → Sator.content g !! j = Sator.content sator !! j)
  ∧ ∃ w p, word = Some w ∧ Inverted_get h w = Some p
           ∧ Sator.content g !! pos = Some (Some w)
           ∧ (2 * pos + 1 ≠ n → Sator.content g !! (n - 1 - pos) = Some (Some p)).
Proof.
  intros (Hlen & Hside & Hring) Hpos Hcopy.
  apply copy_with_word_in_pos_inv in Hcopy as (w & p & -> & Hp & _ & _ & ->);
    [|congruence].
  rewrite Hside. cbn [Sator.content Sator.length].
  destruct (Nat.eqb_spec (2 * pos + 1) n) as [Hmid|Hmid].
  - split_and!.
    + unfold ring_closed. cbn [Sator.content Sator.length].
      split_and!; [by rewrite length_insert|done|]. intros j Hj.
      specialize (Hring j Hj). unfold filled in *. cbn [Sator.content].
      rewrite list_lookup_insert. repeat case_decide; eauto; lia.
    + intros j Hj _. by rewrite list_lookup_insert_ne.
    + exists w, p. split_and!; try done.
      rewrite list_lookup_insert. case_decide; [done|lia].
  - split_and!.
    + unfold ring_closed. cbn [Sator.content Sator.length].
      split_and!; [by rewrite !length_insert|done|]. intros j Hj.
      specialize (Hring j Hj). unfold filled in *. cbn [Sator.content].
      rewrite !list_lookup_insert, length_insert. repeat case_decide; eauto; lia.
    + intros j Hj Hj'. by rewrite !list_lookup_insert_ne.
    + exists w, p. split_and!; try done.
      * rewrite list_lookup_insert_ne by lia.
        rewrite list_lookup_insert. case_decide; [done|lia].
      * intros _. rewrite list_lookup_insert, length_insert. case_decide; [done|lia].
Qed.

Lemma ring_closed_open (n pos : nat) (g : Sator.t) :
  2 * S pos + 1 ≤ n → ring_closed n (S pos) g → ring_open n pos g.
Proof.
  intros Hpos (Hlen & Hside & Hring). split_and!; [done..|].
  intros j Hj. specialize (Hring j Hj). repeat case_decide; (done || lia).
Qed.

Lemma reaches_ring (h : Heap) (self : Satorter.t) (running_word : Word) (pos : nat)
    (sator g : Sator.t) :
  reaches h self running_word pos sator g →
  ring_open (Satorter.length self) pos sator →
  2 * pos + 1 ≤ Satorter.length self →
  ∃ last, last ≤ pos
    ∧ (last = 0 ∨ (Z.of_nat last ≤ Satorter.near_miss self)%Z)
    ∧ ring_closed (Satorter.length self) last g.
Proof.
  induction 1 as [rw pos sator new_id g Hcopy Hend
                 |rw pos sator new_id new_sator letters c g Hcopy _ _ _ _ IH];
    intros Hopen Hpos.
  - exists pos. split_and!; [done..|].
    by destruct (placed_ring _ _ _ _ _ _ _ Hopen Hpos Hcopy).
  - destruct (placed_ring _ _ _ _ _ _ _ Hopen Hpos Hcopy) as (Hclosed & _).
    destruct IH as (last & Hlast & Hend & Hg); [by apply ring_closed_open|lia|].
    exists last. split_and!; [lia|done..].
Qed.

(** ** The symmetries of the grids the search yields *)

Lemma py_slice_lookup {A} (l letters : list A) (lo k : nat) (x : A) :
  py_slice l (Z.of_nat lo) (Z.of_nat lo + Z.of_nat (List.length letters)) = letters →
  letters !! k = Some x → l !! (lo + k) = Some x.
Proof.
  rewrite <- Nat2Z.inj_add, py_slice_nat. intros Heq Hk. rewrite <- Heq in Hk.
  apply lookup_take_Some in Hk as [Hk _]. rewrite lookup_drop in Hk.
  destruct (decide (lo ≤ List.length l)) as [Hle|Hgt].
  - by rewrite Nat.min_l in Hk.
  - rewrite Nat.min_r in Hk by lia. apply lookup_lt_Some in Hk. lia.
Qed.

Lemma column_lookup (pos : nat) (rows : list (option Word)) (letters : str) :
  Satorter.column (S pos) rows = Ok letters →
  ∀ k row, rows !! k = Some row →
    ∃ w x, row = Some w ∧ deaccented w !! pos = Some x ∧ letters !! k = Some x.
Proof.
  revert letters.
  induction rows as [|[w|] rows IH]; intros letters; cbn [Satorter.column]; [|..|done].
  - intros _ k row Hk. by rewrite lookup_nil in Hk.
  - unfold py_getitem, py_index.
    replace (Z.of_nat (S pos) - 1)%Z with (Z.of_nat pos) by lia.
    destruct (Z.leb_spec 0 (Z.of_nat pos)); [|lia]. rewrite Nat2Z.id.
    destruct (Z.of_nat pos <? _)%Z; [|done].
    match goal with
    | |- context [match ?x with Some _ => _ | None => _ end] =>
        destruct x as [c|] eqn:Hc; [|done]
    end.
    destruct (Satorter.column (S pos) rows) as [cs|] eqn:Hcs; [|done].
    intros [= <-] [|k] row.
    + intros [= <-]. eauto.
    + intros Hk. by apply (IH cs).
Qed.

Lemma required_lookup (self : Satorter.t) (new_sator : Sator.t) (pos : nat)
    (letters : str) :
  ring_closed (Satorter.length self) (S pos) new_sator →
  2 * S pos + 1 ≤ Satorter.length self →
  Satorter.required self new_sator (S pos) = Ok letters →
  ∀ j, pos < j < Satorter.length self - 1 - pos →
    ∃ x, letter new_sator j pos = Some x ∧ letters !! (j - S pos) = Some x.
Proof.
  intros (Hlen & _ & _) Hpos Hreq j Hj.
  unfold Satorter.required, Sator.__getitem__ in Hreq.
  rewrite (py_slice_ring _ (Satorter.length self)) in Hreq by (done || lia).
  destruct (lookup_lt_is_Some_2 (Sator.content new_sator) j) as [row Hrow]; [lia|].
  destruct (column_lookup _ _ _ Hreq (j - S pos) row) as (w & x & -> & Hw & Hx).
  { apply lookup_take_Some. split; [|lia]. rewrite lookup_drop.
    by replace (S pos + (j - S pos)) with j by lia. }
  exists x. split; [|done]. unfold letter. by rewrite Hrow.
Qed.

Section Symmetry.
Variable h : Heap.
Variable self : Satorter.t.
Hypothesis Hheap : heap_wf h.
Hypothesis Hidx : index_wf (Satorter.words self).
Hypothesis Halloc : index_allocated (Satorter.words self) h.

Lemma partner_forms (running_word w p : Word) :
  allocated h !! wid running_word = Some running_word →
  Inverted_get h running_word = Some w →
  Inverted_get h w = Some p →
  deaccented w = invert (deaccented running_word)
  ∧ deaccented p = deaccented running_word.
Proof.
  intros Hrw Hw Hp. destruct Hheap as [_ Hinv]. unfold Inverted_get in *.
  destruct (Hinv _ _ Hw) as (w0 & Hw0 & Hwa & Hrev & _).
  assert (w0 = running_word) as -> by congruence.
  destruct (Hinv _ _ Hp) as (w1 & Hw1 & _ & Hrev' & _).
  assert (w1 = w) as -> by congruence.
  split; [done|]. by rewrite Hrev', Hrev, invert_involutive.
Qed.

Lemma placed_symmetry (running_word : Word) (pos new_id : nat) (sator g : Sator.t) :
  let n := Satorter.length self in
  ring_open n pos sator → 2 * pos + 1 ≤ n →
  allocated h !! wid running_word = Some running_word →
  (2 * pos + 1 = n → deaccented running_word = invert (deaccented running_word)) →
  mirrored n sator → turned n (S pos) sator →
  (∀ j, pos < j < n - 1 - pos →
     ∃ x, deaccented running_word !! j = Some x ∧ letter sator j pos = Some x) →
  Sator.copy_with_word_in_pos h new_id sator (Inverted_get h running_word) pos = Ok g →
  ring_closed n pos g ∧ mirrored n g ∧ turned n pos g.
Proof.
  intros n Hopen Hpos Hrw Hmid Hmirror Hturned Hfits Hcopy.
  destruct (placed_ring _ _ _ _ _ _ _ Hopen Hpos Hcopy)
    as (Hclosed & Hframe & w & p & Hw & Hp & Hrow & Hrow').
  destruct (partner_forms running_word w p Hrw Hw Hp) as [Hwform Hpform].
  split_and!; [done| |].
  - intros j w0 Hj.
    assert (j < n) as Hjn.
    { apply lookup_lt_Some in Hj. by rewrite (proj1 Hclosed) in Hj. }
    destruct (decide (j = pos)) as [->|Hne].
    { assert (w0 = w) as -> by congruence.
      destruct (decide (2 * pos + 1 = n)) as [Hm|Hm].
      - exists w. split; [by replace (n - 1 - pos) with pos by lia|].
        rewrite Hwform, invert_involutive. symmetry. by apply Hmid.
      - exists p. split; [by apply Hrow'|]. by rewrite Hpform, Hwform, invert_involutive. }
    destruct (decide (j = n - 1 - pos)) as [->|Hne'].
    { assert (2 * pos + 1 ≠ n) as Hm by lia.
      assert (w0 = p) as -> by (specialize (Hrow' Hm); congruence).
      exists w. split; [by replace (n - 1 - (n - 1 - pos)) with pos by lia|].
      by rewrite Hpform, Hwform. }
    rewrite Hframe in Hj by done.
    destruct (Hmirror j w0 Hj) as (p0 & Hp0 & Hform). exists p0. split; [|done].
    rewrite Hframe by lia. done.
  - intros r j Hr Hj. destruct (decide (r = pos)) as [->|Hne].
    + destruct (Hfits j Hj) as (x & Hx & Hcol). exists x. split.
      * unfold letter. rewrite Hrow' by lia. by rewrite Hpform.
      * unfold letter in *. rewrite Hframe by lia. done.
    + destruct (Hturned r j) as (x & Hx & Hcol); [lia|done|].
      exists x. unfold letter in *. rewrite !Hframe by lia. done.
Qed.

Lemma reaches_symmetry (running_word : Word) (pos : nat) (sator g : Sator.t) :
  let n := Satorter.length self in
  reaches h self running_word pos sator g →
  ring_open n pos sator → 2 * pos + 1 ≤ n →
  allocated h !! wid running_word = Some running_word →
  (2 * pos + 1 = n → deaccented running_word = invert (deaccented running_word)) →
  mirrored n sator → turned n (S pos) sator →
  (∀ j, pos < j < n - 1 - pos →
     ∃ x, deaccented running_word !! j = Some x ∧ letter sator j pos = Some x) →
  ∃ last, ring_closed n last g ∧ mirrored n g ∧ turned n last g.
Proof.
  intros n.
  induction 1 as [rw pos sator new_id g Hcopy Hend
                 |rw pos sator new_id new_sator letters c g Hcopy Hreq Hc Ht _ IH];
    intros Hopen Hpos Hrw Hmid Hmirror Hturned Hfits.
  - exists pos. by apply (placed_symmetry rw pos new_id sator).
  - destruct (placed_symmetry rw (S pos) new_id sator new_sator)
      as (Hclosed & Hmirror' & Hturned'); try done.
    unfold WordsList.word_for_letters_in_position in Hc.
    destruct (py_getitem letters 0); [|by apply elem_of_nil in Hc].
    destruct (matching_indexed _ _ _ _ _ _ Hc) as [item Hitem].
    apply (matching_sound _ _ _ _ _ _ Hidx) in Hc as [Hslice _].
    apply IH; try done.
    + by apply ring_closed_open.
    + fold n. lia.
    + by apply (Halloc item).
    + fold n. lia.
    + intros j Hj.
      destruct (required_lookup self new_sator pos letters Hclosed Hpos Hreq j Hj)
        as (x & Hcol & Hx).
      exists x. split; [|done].
      replace j with (S pos + (j - S pos)) by lia.
      by apply (py_slice_lookup _ letters).
Qed.
End Symmetry.

Lemma seeds_yields_from (h : Heap) (self : Satorter.t) (P : Sator.t → Prop)
    (sator_bound : bool) (todo : list Word) (results : list Sator.t) (next_id : nat) :
  (∀ word n g, word ∈ todo →
     negb (Satorter.length self mod 2 =? 0) && negb (is_symmetrical word) = false →
     g ∈ fst (fst (Satorter.iter_sator_for_central h self word None None n)) → P g) →
  ∀ g, g ∈ Satorter.yielded (Satorter.seeds h self sator_bound todo results next_id) → P g.
Proof.
  revert results next_id.
  induction todo as [|word rest IH]; intros results next_id Hiter g; cbn [Satorter.seeds].
  - by intros ?%elem_of_nil.
  - assert (∀ word' n g, word' ∈ rest →
              negb (Satorter.length self mod 2 =? 0) && negb (is_symmetrical word') = false →
              g ∈ fst (fst (Satorter.iter_sator_for_central h self word' None None n)) → P g)
      as Hrest.
    { intros word' n g' Hin. apply Hiter. by apply list_elem_of_further. }
    destruct (negb (Satorter.length self mod 2 =? 0) && negb (is_symmetrical word)) eqn:Hskip;
      [by apply IH|].
    specialize (Hiter word next_id).
    destruct (Satorter.iter_sator_for_central h self word None None next_id)
      as [[found e] n1]. simpl in Hiter.
    pose proof (pass_on_subset found results) as Hsub.
    destruct (Satorter.pass_on found results) as [ys results1]. simpl in Hsub.
    assert (∀ g, g ∈ ys → P g) as Hys.
    { intros g' Hg'. apply Hiter; [apply list_elem_of_here|done|by apply Hsub]. }
    destruct e as [e|]; [destruct sator_bound|]; simpl.
    + intros [?|?]%elem_of_app; [by apply Hys | by eapply IH].
    + apply Hys.
    + intros [?|?]%elem_of_app; [by apply Hys | by eapply IH].
Qed.

Lemma empty_grid_open (self : Satorter.t) (new_id : nat) :
  1 ≤ Satorter.length self →
  let n := Satorter.length self in
  let sator := {| Sator.id := new_id; Sator.length := n;
                  Sator.content := replicate n None |} in
  ring_open n (Satorter.middle_pos self) sator
  ∧ mirrored n sator
  ∧ turned n (S (Satorter.middle_pos self)) sator
  ∧ ∀ j, ¬ Satorter.middle_pos self < j < n - 1 - Satorter.middle_pos self.
Proof.
  intros Hn n sator. destruct (middle_pos_bounds self Hn) as [Hlo Hhi]. fold n in Hlo, Hhi.
  split_and!.
  - split_and!; [apply length_replicate|done|]. intros j Hj.
    case_decide; [lia|]. by apply lookup_replicate_2.
  - intros j w [[=] _]%lookup_replicate.
  - intros r j Hr Hj. lia.
  - intros j Hj. lia.
Qed.

(** X12. Every grid the generator yields has [length] slots, and the slots
    that hold a word are those from some [pos] to [length - 1 - pos],
    the others being [None]; [pos] is 0, the grid is full, unless
    [pos <= near_miss]. *)
Theorem generator_yields_rings (h : Heap) (self : Satorter.t)
    (sator_bound : bool) (next_id : nat) (g : Sator.t) :
  1 ≤ Satorter.length self →
  g ∈ Satorter.yielded (Satorter.generator h self sator_bound next_id) →
  ∃ pos, pos ≤ Satorter.middle_pos self
    ∧ (pos = 0 ∨ (Z.of_nat pos ≤ Satorter.near_miss self)%Z)
    ∧ List.length (Sator.content g) = Satorter.length self
    ∧ ∀ j, j < Satorter.length self →
        if decide (pos ≤ j ≤ Satorter.length self - 1 - pos)
        then ∃ w, Sator.content g !! j = Some (Some w)
        else Sator.content g !! j = Some None.
Proof.
  intros Hn. unfold Satorter.generator. revert g.
  apply seeds_yields. intros word n g.
  unfold Satorter.iter_sator_for_central, Sator.__init__.
  destruct (middle_pos_bounds self Hn) as [Hlo Hhi].
  destruct (empty_grid_open self n Hn) as (Hopen & _).
  intros Hg. apply search_reaches in Hg.
  destruct (reaches_ring _ _ _ _ _ _ Hg Hopen Hlo) as (pos & Hpos & Hend & Hlen & _ & Hring).
  exists pos. split_and!; done.
Qed.

Lemma generator_yields_rings_witness :
  ∃ pos, pos ≤ 0
    ∧ (pos = 0 ∨ (Z.of_nat pos ≤ 0)%Z)
    ∧ List.length [Some (mkWord 1 (lit "ba")); Some (mkWord 0 (lit "ab"))] = 2
    ∧ ∀ j, j < 2 →
        if decide (pos ≤ j ≤ 2 - 1 - pos)
        then ∃ w, [Some (mkWord 1 (lit "ba")); Some (mkWord 0 (lit "ab"))] !! j
                  = Some (Some w)
        else [Some (mkWord 1 (lit "ba")); Some (mkWord 0 (lit "ab"))] !! j = Some None.
Proof.
  apply (generator_yields_rings
           (snd (WordsList.__init__ empty_heap [lit "ab"; lit "ba"] (Some 2)))
           {| Satorter.words :=
                fst (WordsList.__init__ empty_heap [lit "ab"; lit "ba"] (Some 2));
              Satorter.near_miss := 0; Satorter.length := 2; Satorter.results := [] |}
           false 0
           {| Sator.id := 1; Sator.length := 2;
              Sator.content := [Some (mkWord 1 (lit "ba")); Some (mkWord 0 (lit "ab"))] |}).
  - simpl. lia.
  - vm_compute. apply list_elem_of_here.
Defined.

Section Built.
Variable h0 : Heap.
Variable words : list str.
Variable fixed length : option nat.
Variable near_miss : Z.
Variable self : Satorter.t.
Hypothesis Hwf0 : heap_wf h0.
Hypothesis Hself :
  Satorter.__init__ (fst (WordsList.__init__ h0 words fixed)) length near_miss = Ok self.

Lemma generator_yields_symmetric (sator_bound : bool) (next_id : nat) (g : Sator.t) :
  g ∈ Satorter.yielded
        (Satorter.generator (snd (WordsList.__init__ h0 words fixed)) self
           sator_bound next_id) →
  ∃ last, ring_closed (Satorter.length self) last g
    ∧ mirrored (Satorter.length self) g
    ∧ turned (Satorter.length self) last g.
Proof.
  destruct (WordsList_init_wf h0 words fixed) as (Hidx & _ & _ & Hheap).
  destruct (Hheap Hwf0) as [Hwf Halloc].
  pose proof Hself as Hself'.
  apply Satorter_init_Ok in Hself' as (Hwords & Hn & _).
  destruct (WordsList.__init__ h0 words fixed) as [index h]. simpl in *. subst index.
  unfold Satorter.generator. revert g. apply seeds_yields_from.
  intros word n g Hword Hskip. unfold WordsList.iter_for_length in Hword.
  apply list_elem_of_filter in Hword as [_ Hword].
  unfold DictStorage.__iter__ in Hword. apply list_elem_of_In, in_map_iff in Hword.
  destruct Hword as ([item word'] & Heq & Hin). simpl in Heq. subst word'.
  apply list_elem_of_In in Hin.
  unfold Satorter.iter_sator_for_central, Sator.__init__.
  destruct (middle_pos_bounds self Hn) as [Hlo Hhi].
  destruct (empty_grid_open self n Hn) as (Hopen & Hmirror & Hturned & Hnone).
  intros Hg. apply search_reaches in Hg.
  apply (reaches_symmetry h self Hwf Hidx Halloc word _ _ g Hg); try done.
  - by apply (Halloc item).
  - intros Hmid. apply andb_false_iff in Hskip as [Hodd|Hsym].
    + apply negb_false_iff, Nat.eqb_eq in Hodd.
      pose proof (Nat.div_mod_eq (Satorter.length self) 2). lia.
    + apply negb_false_iff in Hsym. by apply bool_decide_eq_true in Hsym.
  - intros j Hj. by destruct (Hnone j).
Qed.
End Built.

(** X13. Over an index built by [WordsList(...)], every word of a grid the
    generator yields faces, in the slot mirrored top to bottom, a word
    whose deaccented form is the reverse of its own. *)
Theorem generator_yields_mirrored_rows (h0 : Heap) (words : list str)
    (fixed length : option nat) (near_miss : Z) (self : Satorter.t)
    (sator_bound : bool) (next_id : nat) (g : Sator.t) (j : nat) (w : Word) :
  heap_wf h0 →
  Satorter.__init__ (fst (WordsList.__init__ h0 words fixed)) length near_miss = Ok self →
  g ∈ Satorter.yielded
        (Satorter.generator (snd (WordsList.__init__ h0 words fixed)) self
           sator_bound next_id) →
  Sator.content g !! j = Some (Some w) →
  ∃ p, Sator.content g !! (Satorter.length self - 1 - j) = Some (Some p)
       ∧ deaccented p = invert (deaccented w).
Proof.
  intros Hwf0 Hself Hg Hj.
  destruct (generator_yields_symmetric h0 words fixed length near_miss self Hwf0 Hself
              sator_bound next_id g Hg) as (_ & _ & Hmirror & _).
  by apply Hmirror.
Qed.

Lemma generator_yields_mirrored_rows_witness :
  ∃ p, [Some (mkWord 1 (lit "ba")); Some (mkWord 0 (lit "ab"))] !! (2 - 1 - 0)
       = Some (Some p)
       ∧ deaccented p = invert (deaccented (mkWord 1 (lit "ba"))).
Proof.
  apply (generator_yields_mirrored_rows empty_heap [lit "ab"; lit "ba"] (Some 2) None 0
           {| Satorter.words :=
                fst (WordsList.__init__ empty_heap [lit "ab"; lit "ba"] (Some 2));
              Satorter.near_miss := 0; Satorter.length := 2; Satorter.results := [] |}
           false 0
           {| Sator.id := 1; Sator.length := 2;
              Sator.content := [Some (mkWord 1 (lit "ba")); Some (mkWord 0 (lit "ab"))] |}
           0 (mkWord 1 (lit "ba"))).
  - apply heap_wf_empty.
  - vm_compute. reflexivity.
  - vm_compute. apply list_elem_of_here.
  - reflexivity.
Defined.

(** X14. What the search makes rows and columns agree on: over an index
    built by [WordsList(...)], in a grid the generator yields, for a
    filled slot [r] and [r < j < length - 1 - r], letter [j] of the row
    in slot [length - 1 - r] is letter [r] of the row in slot [j].  The
    row mirrored to [r] reads, inside ring [r], like column [r] read top
    to bottom. *)
Theorem generator_yields_turned_grids (h0 : Heap) (words : list str)
    (fixed length : option nat) (near_miss : Z) (self : Satorter.t)
    (sator_bound : bool) (next_id : nat) (g : Sator.t) (r j : nat) :
  heap_wf h0 →
  Satorter.__init__ (fst (WordsList.__init__ h0 words fixed)) length near_miss = Ok self →
  g ∈ Satorter.yielded
        (Satorter.generator (snd (WordsList.__init__ h0 words fixed)) self
           sator_bound next_id) →
  filled g r →
  r < j < Satorter.length self - 1 - r →
  ∃ x, letter g (Satorter.length self - 1 - r) j = Some x ∧ letter g j r = Some x.
Proof.
  intros Hwf0 Hself Hg [w Hr] Hj.
  destruct (generator_yields_symmetric h0 words fixed length near_miss self Hwf0 Hself
              sator_bound next_id g Hg) as (last & (_ & _ & Hring) & _ & Hturned).
  apply Hturned; [|done]. specialize (Hring r). case_decide; [lia|].
  rewrite Hring in Hr by lia. done.
Qed.

Lemma generator_yields_turned_grids_witness :
  ∃ x, letter {| Sator.id := 2; Sator.length := 3;
                 Sator.content := [Some (mkWord 1 (lit "bab")); Some (mkWord 0 (lit "aba"));
                                   Some (mkWord 1 (lit "bab"))] |} (3 - 1 - 0) 1 = Some x
       ∧ letter {| Sator.id := 2; Sator.length := 3;
                   Sator.content := [Some (mkWord 1 (lit "bab")); Some (mkWord 0 (lit "aba"));
                                     Some (mkWord 1 (lit "bab"))] |} 1 0 = Some x.
Proof.
  apply (generator_yields_turned_grids empty_heap [lit "aba"; lit "bab"] (Some 3) None 0
           {| Satorter.words :=
                fst (WordsList.__init__ empty_heap [lit "aba"; lit "bab"] (Some 3));
              Satorter.near_miss := 0; Satorter.length := 3; Satorter.results := [] |}
           false 0).
  - apply heap_wf_empty.
  - vm_compute. reflexivity.
  - vm_compute. apply list_elem_of_here.
  - eexists. reflexivity.
  - simpl. lia.
Defined.

(** ** The seeds of the search *)

(** X15. After [WordsList(words, length)] on a well-formed heap,
    [iter_for_length(n)] yields exactly the indexed words of [n] letters
    whose deaccented form, reversed, is a key of the index; it yields
    each of them once. *)
Theorem iter_for_length_yields_reversible (h : Heap) (words : list str)
    (length : option nat) (n : nat) :
  heap_wf h →
  let self := fst (WordsList.__init__ h words length) in
  let h' := snd (WordsList.__init__ h words length) in
  (∀ w, w ∈ WordsList.iter_for_length self h' n
        ↔ w ∈ DictStorage.__iter__ (WordsList.words self)
          ∧ Word_len w = n
          ∧ is_Some (DictStorage.get (WordsList.words self) (invert (deaccented w))))
  ∧ NoDup (WordsList.iter_for_length self h' n).
Proof.
  intros Hwf self h'.
  destruct (WordsList_init_wf h words length) as ([Hkey _] & _).
  destruct (WordsList_init_exact h words length) as (Hnd & _).
  fold self in Hkey, Hnd.
  assert (∀ w, w ∈ DictStorage.__iter__ (WordsList.words self) →
               (deaccented w, w) ∈ WordsList.words self) as Hentry.
  { intros w Hw. unfold DictStorage.__iter__ in Hw.
    apply list_elem_of_In, in_map_iff in Hw as ([k w'] & Heq & Hin).
    simpl in Heq. subst w'. apply list_elem_of_In in Hin.
    by rewrite (Hkey k w Hin). }
  split.
  - intros w. unfold WordsList.iter_for_length. rewrite list_elem_of_filter.
    split.
    + intros [Hkeep Hw].
      apply Is_true_true, negb_true_iff, orb_false_iff in Hkeep as [Hlen Hinv].
      apply negb_false_iff, Nat.eqb_eq in Hlen. apply bool_decide_eq_false in Hinv.
      split_and!; [done..|].
      apply (init_partner_iff h words length _ w Hwf (Hentry w Hw)).
      by destruct (Inverted_get _ w); [eauto|].
    + intros (Hw & Hlen & Hrev). split; [|done].
      apply Is_true_true, negb_true_iff, orb_false_iff. split.
      * by apply negb_false_iff, Nat.eqb_eq.
      * apply bool_decide_eq_false.
        apply (init_partner_iff h words length _ w Hwf (Hentry w Hw)) in Hrev.
        fold h' in Hrev. destruct Hrev as [p Hp]. by rewrite Hp.
  - apply NoDup_filter. apply (NoDup_fmap_1 deaccented).
    replace (deaccented <$> DictStorage.__iter__ (WordsList.words self))
      with (map fst (WordsList.words self)); [done|].
    unfold DictStorage.__iter__. change (deaccented <$> ?l) with (map deaccented l).
    rewrite map_map. apply map_ext_in.
    intros [k v] Hin. simpl. symmetry. by apply Hkey, list_elem_of_In.
Qed.

Lemma iter_for_length_yields_reversible_witness :
  NoDup (WordsList.iter_for_length
           (fst (WordsList.__init__ empty_heap [lit "ab"; lit "ba"] (Some 2)))
           (snd (WordsList.__init__ empty_heap [lit "ab"; lit "ba"] (Some 2))) 2).
Proof.
  apply (iter_for_length_yields_reversible empty_heap [lit "ab"; lit "ba"] (Some 2) 2
           heap_wf_empty).
Defined.

(** ** The outcomes of a placement *)

(** Settles a table of outcomes once the result is known. *)
Ltac outcomes :=
  split_and!; split; intros;
  repeat match goal with
         | H : ∃ _, _ |- _ => destruct H as [? H]
         | H : _ ∧ _ |- _ => destruct H
         end;
  simplify_eq; try done; try (exfalso; congruence); try (exfalso; lia);
  try (by eexists); try (eexists; split_and!; (done || lia)).

(** X16. [g.copy_with_word_in_pos(word, pos)] on a grid whose list has
    [length] slots, for [pos >= 0]: an AttributeError at line 148 exactly when
    [word] is [None]; the AssertionError of line 148 exactly when [word]
    has no partner or the empty word as partner; an IndexError at line
    149 exactly when the partner is fine and [pos >= length]; a grid in
    all other cases.  The length assertion of [Sator.__init__] and the
    assignment to the mirrored slot never fail. *)
Theorem copy_with_word_in_pos_outcomes (h : Heap) (new_id : nat) (g : Sator.t)
    (word : option Word) (pos : nat) :
  List.length (Sator.content g) = Sator.length g →
  let result := Sator.copy_with_word_in_pos h new_id g word pos in
  (result = Raise (mkExn AttributeError 148) ↔ word = None)
  ∧ (result = Raise (mkExn AssertionError 148)
     ↔ ∃ w, word = Some w ∧ truth (Inverted_get h w) = false)
  ∧ (result = Raise (mkExn IndexError 149)
     ↔ ∃ w, word = Some w ∧ truth (Inverted_get h w) = true ∧ Sator.length g ≤ pos)
  ∧ ((∃ g2, result = Ok g2)
     ↔ ∃ w, word = Some w ∧ truth (Inverted_get h w) = true ∧ pos < Sator.length g).
Proof.
  intros Hlen result.
  destruct word as [w|].
  2:{ assert (result = Raise (mkExn AttributeError 148)) as ->; [|outcomes].
      unfold result, Sator.copy_with_word_in_pos. by rewrite Sator_copy_ok. }
  destruct (truth (Inverted_get h w)) eqn:Ht.
  2:{ assert (result = Raise (mkExn AssertionError 148)) as ->; [|outcomes].
      unfold result, Sator.copy_with_word_in_pos. rewrite Sator_copy_ok by done.
      unfold Sator.__setitem__. by rewrite Ht. }
  destruct (decide (pos < Sator.length g)) as [Hpos|Hpos].
  - assert (∃ p, Inverted_get h w = Some p ∧ Word_len p ≠ 0) as (p & Hp & Hne).
    { destruct (Inverted_get h w) as [p|]; [|done]. exists p.
      split; [done|]. by apply truth_Some. }
    assert (∃ g2, result = Ok g2) as [g2 ->]; [|outcomes].
    unfold result, Sator.copy_with_word_in_pos. rewrite Sator_copy_ok by done.
    rewrite (Sator_setitem_ok h _ pos w p) by done. eauto.
  - assert (result = Raise (mkExn IndexError 149)) as ->; [|outcomes].
    unfold result, Sator.copy_with_word_in_pos. rewrite Sator_copy_ok by done.
    unfold Sator.__setitem__. rewrite Ht. cbn [negb Sator.content].
    unfold py_setitem, py_index. rewrite <- Hlen in Hpos.
    destruct (Z.leb_spec 0 (Z.of_nat pos)); [|lia].
    by destruct (Z.ltb_spec (Z.of_nat pos) (Z.of_nat (List.length (Sator.content g))));
      [lia|].
Qed.

Lemma copy_with_word_in_pos_outcomes_witness :
  Sator.copy_with_word_in_pos empty_heap 1
    {| Sator.id := 0; Sator.length := 2; Sator.content := [None; None] |} None 0
  = Raise (mkExn AttributeError 148) ↔ (None : option Word) = None.
Proof.
  apply (copy_with_word_in_pos_outcomes empty_heap 1
           {| Sator.id := 0; Sator.length := 2; Sator.content := [None; None] |} None 0).
  reflexivity.
Defined.

(** ** The set of results after a run *)

Lemma seeds_results (h : Heap) (self : Satorter.t) (sator_bound : bool)
    (todo : list Word) :
  ∀ (results : list Sator.t) (next_id : nat),
    (∀ r, r ∈ results → Sator.id r < next_id) →
    Satorter.results_after (Satorter.seeds h self sator_bound todo results next_id)
    = results ++ Satorter.yielded (Satorter.seeds h self sator_bound todo results next_id)
    ∧ (∀ g, g ∈ Satorter.yielded (Satorter.seeds h self sator_bound todo results next_id) →
         next_id ≤ Sator.id g)
    ∧ NoDup (map Sator.id
               (Satorter.yielded (Satorter.seeds h self sator_bound todo results next_id))).
Proof.
  induction todo as [|word rest IH]; intros results next_id Hold; cbn [Satorter.seeds].
  - simpl. rewrite app_nil_r. split_and!; [done| |constructor]. by intros g ?%elem_of_nil.
  - destruct (negb (Satorter.length self mod 2 =? 0) && negb (is_symmetrical word));
      [by apply IH|].
    assert (∃ n, next_id ≤ n ∧
              new_objects n
                (fst (fst (Satorter.iter_sator_for_central h self word None None next_id)))
                (snd (Satorter.iter_sator_for_central h self word None None next_id)))
      as (n & Hn & Hafter & Hin & Hnd).
    { unfold Satorter.iter_sator_for_central, Sator.__init__.
      exists (S next_id). split; [lia|]. apply search_new_objects. }
    destruct (Satorter.iter_sator_for_central h self word None None next_id)
      as [[found e] n1]. simpl in Hafter, Hin, Hnd.
    rewrite pass_on_all; [|done|].
    2:{ intros r g Hr Hg. apply Hold in Hr. apply Hin in Hg. lia. }
    assert (∀ r, r ∈ results ++ found → Sator.id r < n1) as Hold1.
    { intros r [Hr|Hr]%elem_of_app; [apply Hold in Hr; lia|apply Hin in Hr; lia]. }
    destruct (IH (results ++ found) n1 Hold1) as (Hres & Hnew & Hnd').
    assert (NoDup (map Sator.id
                     (found ++ Satorter.yielded
                                 (Satorter.seeds h self sator_bound rest (results ++ found) n1))))
      as Hnd2.
    { rewrite map_app. apply NoDup_app. split_and!; [done| |done].
      intros i Hi1 Hi2.
      apply list_elem_of_In, in_map_iff in Hi1 as (g1 & <- & Hg1).
      apply list_elem_of_In, in_map_iff in Hi2 as (g2 & Heq & Hg2).
      apply list_elem_of_In, Hin in Hg1. apply list_elem_of_In, Hnew in Hg2. lia. }
    assert (∀ g, g ∈ found ++ Satorter.yielded
                         (Satorter.seeds h self sator_bound rest (results ++ found) n1) →
                 next_id ≤ Sator.id g) as Hnew2.
    { intros g [Hg|Hg]%elem_of_app; [apply Hin in Hg; lia|apply Hnew in Hg; lia]. }
    destruct e as [e|]; [destruct sator_bound|]; cbn [Satorter.results_after Satorter.yielded].
    + rewrite Hres, <- app_assoc. done.
    + split_and!; [done| |done]. intros g Hg. apply Hin in Hg. lia.
    + rewrite Hres, <- app_assoc. done.
Qed.

(** X17. When the grids in [self.results] are older objects than any the
    run allocates, [self.results] after a run of the generator is what
    it held before followed by the grids the run has yielded, and the
    grids yielded are distinct new objects. *)
Theorem generator_results_are_yields (h : Heap) (self : Satorter.t)
    (sator_bound : bool) (next_id : nat) :
  (∀ r, r ∈ Satorter.results self → Sator.id r < next_id) →
  Satorter.results_after (Satorter.generator h self sator_bound next_id)
  = Satorter.results self
    ++ Satorter.yielded (Satorter.generator h self sator_bound next_id)
  ∧ (∀ g, g ∈ Satorter.yielded (Satorter.generator h self sator_bound next_id) →
       next_id ≤ Sator.id g)
  ∧ NoDup (map Sator.id (Satorter.yielded (Satorter.generator h self sator_bound next_id))).
Proof. intros Hold. unfold Satorter.generator. by apply seeds_results. Qed.

Lemma generator_results_are_yields_witness :
  NoDup (map Sator.id
           (Satorter.yielded
              (Satorter.generator (snd anna_saab) (fst anna_saab) false 0))).
Proof.
  apply (generator_results_are_yields (snd anna_saab) (fst anna_saab) false 0).
  intros r Hr. vm_compute in Hr. by apply elem_of_nil in Hr.
Defined.

(** ** [Sator.__hash__] *)

Lemma str_ltb_irrefl (s : str) : str_ltb s s = false.
Proof. induction s as [|c s IH]; simpl; [done|]. by rewrite N.ltb_irrefl. Qed.

Lemma str_ltb_asym (s1 s2 : str) : str_ltb s1 s2 = true → str_ltb s2 s1 = false.
Proof.
  revert s2. induction s1 as [|c1 r1 IH]; intros [|c2 r2]; simpl; try done.
  destruct (N.ltb_spec c1 c2), (N.ltb_spec c2 c1); try done; try lia.
  apply IH.
Qed.

Lemma str_ltb_total (s1 s2 : str) :
  str_ltb s1 s2 = false → str_ltb s2 s1 = false → s1 = s2.
Proof.
  revert s2. induction s1 as [|c1 r1 IH]; intros [|c2 r2]; simpl; try done.
  destruct (N.ltb_spec c1 c2), (N.ltb_spec c2 c1); try done.
  intros H1 H2. f_equal; [lia|by apply IH].
Qed.

Lemma str_ltb_trans (s1 s2 s3 : str) :
  str_ltb s1 s2 = true → str_ltb s2 s3 = true → str_ltb s1 s3 = true.
Proof.
  revert s2 s3. induction s1 as [|c1 r1 IH]; intros [|c2 r2] [|c3 r3]; simpl; try done.
  destruct (N.ltb_spec c1 c2), (N.ltb_spec c2 c1), (N.ltb_spec c2 c3),
    (N.ltb_spec c3 c2), (N.ltb_spec c1 c3), (N.ltb_spec c3 c1);
    try done; try lia.
  apply IH.
Qed.

(** [s1 <= s2], as [not (s2 < s1)]. *)
Lemma str_le_trans (s1 s2 s3 : str) :
  str_ltb s2 s1 = false → str_ltb s3 s2 = false → str_ltb s3 s1 = false.
Proof.
  intros H12 H23. destruct (str_ltb s3 s1) eqn:H31; [|done].
  destruct (str_ltb s1 s2) eqn:E12.
  - by rewrite (str_ltb_trans s3 s1 s2) in H23.
  - assert (s1 = s2) as -> by (by apply str_ltb_total). congruence.
Qed.

Lemma insert_sorted_sorted (x : Word) (l : list Word) :
  StronglySorted (fun a b => Word_lt b a = false) l →
  StronglySorted (fun a b => Word_lt b a = false) (insert_sorted Word_lt x l).
Proof.
  induction 1 as [|y l Hl IH Hy]; simpl; [repeat constructor|].
  destruct (Word_lt x y) eqn:Hxy.
  - constructor; [by constructor|]. constructor.
    + by apply str_ltb_asym.
    + eapply Forall_impl; [exact Hy|]. intros z Hz. simpl in Hz.
      apply (str_le_trans _ (original y)); [by apply str_ltb_asym|done].
  - constructor; [done|]. rewrite insert_sorted_perm. by constructor.
Qed.

Lemma sorted_sorted (l : list Word) :
  StronglySorted (fun a b => Word_lt b a = false) (sorted Word_lt l).
Proof.
  unfold sorted.
  assert (StronglySorted (fun a b => Word_lt b a = false) []) as Hacc by constructor.
  revert Hacc. generalize (@nil Word) as acc.
  induction l as [|x l IH]; intros acc Hacc; simpl; [done|].
  by apply IH, insert_sorted_sorted.
Qed.

(** X18. What [Sator.__hash__] hashes depends on no more than which
    entries of the grid are true and how often each occurs: two grids
    whose true entries are the same up to their order give [sorted] the
    same sequence of [original] strings to hash, wherever the entries
    sit and wherever the [None]s are. *)
Theorem hash_key_ignores_order (g1 g2 : Sator.t) :
  true_entries g1 ≡ₚ true_entries g2 →
  map original (Sator.hash_key g1) = map original (Sator.hash_key g2).
Proof.
  intros Hperm. unfold Sator.hash_key. fold (true_entries g1) (true_entries g2).
  apply (StronglySorted_unique_strong (fun a b => str_ltb b a = false)).
  - intros s1 s2 _ _ H1 H2. by apply str_ltb_total.
  - apply (StronglySorted_fmap _ (fun a b => Word_lt b a = false)); [done|].
    apply sorted_sorted.
  - apply (StronglySorted_fmap _ (fun a b => Word_lt b a = false)); [done|].
    apply sorted_sorted.
  - apply Permutation_map. by rewrite !sorted_perm.
Qed.

Lemma hash_key_ignores_order_witness :
  map original
    (Sator.hash_key {| Sator.id := 0; Sator.length := 3;
                       Sator.content := [Some (mkWord 0 (lit "ab")); None;
                                         Some (mkWord 1 (lit "ba"))] |})
  = map original
      (Sator.hash_key {| Sator.id := 1; Sator.length := 3;
                         Sator.content := [Some (mkWord 1 (lit "ba"));
                                           Some (mkWord 0 (lit "ab")); None] |}).
Proof.
  apply hash_key_ignores_order. vm_compute. apply Permutation_swap.
Defined.
